(** * merkletree: a shallow embedding of [merkletree/merkletree.go]

    The Go package builds a binary hash tree over a byte buffer that is
    first chopped into segments.  This file embeds the package function by
    function and proves what the code does.

    Conventions of the embedding:
    - [uint32] values are integers of [Z] with the wrap-around modulo
      [2^32] written out ([uint32.add], [uint32.sub], [uint32.of_len]);
    - [[]byte] is [list byte];
    - a [*node] is a [nodeptr]: [nil] or a pointer to [left], [right] and
      a [hash.Hash];
    - a [hash.Hash] value is the digest algorithm it was created with and
      the bytes written to it so far; [Sum] hashes those bytes;
    - a call either returns, panics, or has not finished within the given
      number of steps ([outcome]); loops and recursion take that number of
      steps as their first argument. *)

From Stdlib Require Import String Ascii Strings.Byte ZArith List Lia Bool.
Import ListNotations.
Local Open Scope Z_scope.

(** ** Machine integers *)

Module uint32.

Definition modulus : Z := 4294967296.

Definition wrap (z : Z) : Z := z mod modulus.

Definition add (a b : Z) : Z := wrap (a + b).
Definition sub (a b : Z) : Z := wrap (a - b).

(** [uint32(len(data))] *)
Definition of_len (data : list byte) : Z := wrap (Z.of_nat (length data)).

Definition in_range (z : Z) : Prop := 0 <= z < modulus.

End uint32.

(** ** Outcomes of a call *)

Inductive outcome (A : Type) : Type :=
| Returns (a : A)
| Panics
| OutOfFuel.
Arguments Returns {A} a.
Arguments Panics {A}.
Arguments OutOfFuel {A}.

Definition bind {A B : Type} (o : outcome A) (k : A -> outcome B) : outcome B :=
  match o with
  | Returns a => k a
  | Panics => Panics
  | OutOfFuel => OutOfFuel
  end.

Notation "x <- c1 ;; c2" := (bind c1 (fun x => c2))
  (at level 61, c1 at next level, right associativity).

(** ** Byte slices *)

Module bytes.

Definition of_Z (z : Z) : byte :=
  match Byte.of_N (Z.to_N (z mod 256)) with
  | Some b => b
  | None => "000"%byte
  end.

Definition to_Z (b : byte) : Z := Z.of_N (Byte.to_N b).

(** [bytes.Equal] *)
Fixpoint Equal (a b : list byte) : bool :=
  match a, b with
  | [], [] => true
  | x :: a', y :: b' => Byte.eqb x y && Equal a' b'
  | _, _ => false
  end.

(** [make([]byte, n)] *)
Definition make (n : Z) : list byte := repeat "000"%byte (Z.to_nat n).

(** [copy(dst, src)]: the first [min(len(dst), len(src))] bytes of [dst]
    are overwritten. *)
Definition copy (dst src : list byte) : list byte :=
  let n := Nat.min (length dst) (length src) in
  firstn n src ++ skipn n dst.

(** [data[lo:hi]]; the bounds are checked at run time.  Go checks [hi]
    against the capacity of [data]; [chopData] never asks for more than
    [len(data)], which is what is checked here. *)
Definition slice (data : list byte) (lo hi : Z) : outcome (list byte) :=
  if (0 <=? lo) && (lo <=? hi) && (hi <=? Z.of_nat (length data))
  then Returns (firstn (Z.to_nat (hi - lo)) (skipn (Z.to_nat lo) data))
  else Panics.

End bytes.

(** ** [hash.Hash] *)

(** A hash value remembers its algorithm and everything written to it. *)
Record hash_Hash : Type := mkHash {
  algorithm : list byte -> list byte;
  written : list byte
}.

(** [h.Write(p)] *)
Definition Write (h : hash_Hash) (p : list byte) : hash_Hash :=
  mkHash (algorithm h) (written h ++ p).

(** [h.Sum(b)] appends the digest of what was written to [b]. *)
Definition Sum (h : hash_Hash) (b : list byte) : list byte :=
  b ++ algorithm h (written h).

(** A [func() hash.Hash]: every call gives a fresh, empty hash. *)
Definition hash_factory : Type := unit -> hash_Hash.

Definition factory_of (alg : list byte -> list byte) : hash_factory :=
  fun _ => mkHash alg [].

(** ** [crypto/sha256] *)

Module sha256.

(** The constants of FIPS 180-4 are fractional parts of roots of the
    first primes, 32 bits each. *)
Definition is_prime (n : Z) : bool :=
  forallb (fun d => negb (n mod Z.of_nat d =? 0)) (seq 2 (Z.to_nat n - 2)).

Definition primes (count : nat) : list Z :=
  firstn count (filter is_prime (map Z.of_nat (seq 2 310))).

(** The largest [r] in [lo, hi) with [r^3 <= n], by bisection. *)
Fixpoint cube_root (steps : nat) (n lo hi : Z) : Z :=
  match steps with
  | O => lo
  | S steps' =>
      let mid := (lo + hi) / 2 in
      if mid * mid * mid <=? n
      then cube_root steps' n mid hi
      else cube_root steps' n lo mid
  end.

(** Cube roots of the first 64 primes. *)
Definition K : list Z :=
  Eval vm_compute in
    map (fun q => uint32.wrap (cube_root 40 (q * 2 ^ 96) 0 (2 ^ 36)))
        (primes 64).

(** Square roots of the first 8 primes. *)
Definition init : list Z :=
  Eval vm_compute in
    map (fun q => uint32.wrap (Z.sqrt (q * 2 ^ 64))) (primes 8).

Definition rotr (n x : Z) : Z :=
  Z.lor (Z.shiftr x n) (uint32.wrap (Z.shiftl x (32 - n))).

Definition Ch (x y z : Z) : Z :=
  Z.lxor (Z.land x y) (Z.land (Z.lxor x 0xffffffff) z).
Definition Maj (x y z : Z) : Z :=
  Z.lxor (Z.lxor (Z.land x y) (Z.land x z)) (Z.land y z).
Definition bsig0 (x : Z) : Z :=
  Z.lxor (Z.lxor (rotr 2 x) (rotr 13 x)) (rotr 22 x).
Definition bsig1 (x : Z) : Z :=
  Z.lxor (Z.lxor (rotr 6 x) (rotr 11 x)) (rotr 25 x).
Definition ssig0 (x : Z) : Z :=
  Z.lxor (Z.lxor (rotr 7 x) (rotr 18 x)) (Z.shiftr x 3).
Definition ssig1 (x : Z) : Z :=
  Z.lxor (Z.lxor (rotr 17 x) (rotr 19 x)) (Z.shiftr x 10).

(** Padding: a [0x80] byte, zeros up to 56 modulo 64, and the length in
    bits as a big-endian 64-bit integer. *)
Definition be_bytes (width : nat) (z : Z) : list byte :=
  map (fun k => bytes.of_Z (Z.shiftr z (8 * Z.of_nat k))) (rev (seq 0 width)).

Definition pad (msg : list byte) : list byte :=
  let len := Z.of_nat (length msg) in
  let zeros := (55 - len) mod 64 in
  msg ++ ["128"%byte] ++ repeat "000"%byte (Z.to_nat zeros)
      ++ be_bytes 8 ((8 * len) mod 2 ^ 64).

Fixpoint be_words (bs : list byte) : list Z :=
  match bs with
  | a :: b :: c :: d :: rest =>
      (bytes.to_Z a * 16777216 + bytes.to_Z b * 65536
       + bytes.to_Z c * 256 + bytes.to_Z d) :: be_words rest
  | _ => []
  end.

(** The message schedule, latest word first. *)
Fixpoint extend (n : nat) (rw : list Z) : list Z :=
  match n with
  | O => rw
  | S n' =>
      let w := uint32.add (uint32.add (ssig1 (nth 1 rw 0)) (nth 6 rw 0))
                          (uint32.add (ssig0 (nth 14 rw 0)) (nth 15 rw 0)) in
      extend n' (w :: rw)
  end.

Definition schedule (block : list Z) : list Z :=
  rev (extend 48 (rev block)).

Definition round (st : list Z) (kw : Z * Z) : list Z :=
  match st with
  | [a; b; c; d; e; f; g; h] =>
      let t1 := uint32.add (uint32.add (uint32.add h (bsig1 e))
                                       (uint32.add (Ch e f g) (fst kw)))
                           (snd kw) in
      let t2 := uint32.add (bsig0 a) (Maj a b c) in
      [uint32.add t1 t2; a; b; c; uint32.add d t1; e; f; g]
  | _ => st
  end.

Definition block (st : list Z) (blk : list Z) : list Z :=
  let st' := fold_left round (combine K (schedule blk)) st in
  map (fun p => uint32.add (fst p) (snd p)) (combine st st').

Fixpoint blocks (n : nat) (st : list Z) (ws : list Z) : list Z :=
  match n with
  | O => st
  | S n' => blocks n' (block st (firstn 16 ws)) (skipn 16 ws)
  end.

(** [sha256.Sum256] as a function of the whole input. *)
Definition sum256 (msg : list byte) : list byte :=
  let ws := be_words (pad msg) in
  let st := blocks (Nat.div (length ws) 16) init ws in
  flat_map (be_bytes 4) st.

(** [sha256.New] *)
Definition New : hash_factory := factory_of sum256.

End sha256.

Definition b (s : string) : list byte := list_byte_of_string s.

Definition hex_digit (z : Z) : ascii :=
  ascii_of_nat (Z.to_nat (if z <? 10 then 48 + z else 87 + z)).

Fixpoint hex (bs : list byte) : string :=
  match bs with
  | [] => EmptyString
  | x :: r =>
      String (hex_digit (bytes.to_Z x / 16))
        (String (hex_digit (bytes.to_Z x mod 16)) (hex r))
  end.

Example sha256_constants :
  hd 0 sha256.K = 0x428a2f98 /\ last sha256.K 0 = 0xc67178f2
  /\ hd 0 sha256.init = 0x6a09e667 /\ last sha256.init 0 = 0x5be0cd19.
Proof. repeat split. Qed.

Example sha256_abc :
  hex (sha256.sum256 (b "abc"))
  = "ba7816bf8f01cfea414140de5dae2223b00361a396177a9cb410ff61f20015ad"%string.
Proof. vm_compute. reflexivity. Qed.

Example sha256_empty :
  hex (sha256.sum256 [])
  = "e3b0c44298fc1c149afbf4c8996fb92427ae41e4649b934ca495991b7852b855"%string.
Proof. vm_compute. reflexivity. Qed.

(** ** Package [merkletree] *)

Module merkletree.

(** A [*node]: [nil_ptr], or a pointer to a [node] struct with its three
    fields. *)
Inductive node_ptr : Type :=
| nil_ptr
| ptr (left right : node_ptr) (hash : hash_Hash).

(** Go's [error]; [None] is the nil error. *)
Definition error : Type := option string.

Record MerkleTree : Type := mkMerkleTree {
  root : node_ptr;
  data : list byte;
  segmentSize : Z;
  newHash : hash_factory
}.

Definition set_root (mt : MerkleTree) (r : node_ptr) : MerkleTree :=
  mkMerkleTree r (data mt) (segmentSize mt) (newHash mt).

Definition set_data (mt : MerkleTree) (d : list byte) : MerkleTree :=
  mkMerkleTree (root mt) d (segmentSize mt) (newHash mt).

(** [n.hash] dereferences [n]. *)
Definition hash_of (n : node_ptr) : outcome hash_Hash :=
  match n with
  | nil_ptr => Panics
  | ptr _ _ h => Returns h
  end.

Definition min (a b : Z) : Z := if a <? b then a else b.

(** The [for] loop of [chopData]: [i] is the loop counter and [segments]
    the slice appended to. *)
Fixpoint chopData_loop (fuel : nat) (data : list byte)
    (dataLen segmentSize i : Z) (segments : list (list byte))
    : outcome (list (list byte)) :=
  match fuel with
  | O => OutOfFuel
  | S fuel' =>
      if i <? dataLen then
        let currSegmentSize := min (uint32.sub dataLen i) segmentSize in
        let segment := bytes.make currSegmentSize in
        window <- bytes.slice data i (uint32.add i currSegmentSize) ;;
        let segment := bytes.copy segment window in
        chopData_loop fuel' data dataLen segmentSize
          (uint32.add i segmentSize) (segments ++ [segment])
      else Returns segments
  end.

Definition chopData (fuel : nat) (data : list byte) (segmentSize : Z)
    : outcome (list (list byte)) :=
  chopData_loop fuel data (uint32.of_len data) segmentSize 0 [].

Fixpoint buildTree (fuel : nat) (mt : MerkleTree)
    (segments : list (list byte)) (start end_ : Z) : outcome node_ptr :=
  match fuel with
  | O => OutOfFuel
  | S fuel' =>
      match segments with
      | [] => Returns nil_ptr
      | segments_0 :: _ =>
          if uint32.sub end_ start <=? segmentSize mt then
            let leaf :=
              ptr nil_ptr nil_ptr (Write (newHash mt tt) segments_0) in
            (* the assignment changes the local slice header only *)
            let segments := skipn 1 segments in
            Returns leaf
          else
            let mid := uint32.add start (uint32.sub end_ start / 2) in
            l <- buildTree fuel' mt segments start mid ;;
            r <- buildTree fuel' mt segments mid end_ ;;
            let h := newHash mt tt in
            lh <- hash_of l ;;
            rh <- hash_of r ;;
            let concat := Sum lh [] ++ Sum rh [] in
            Returns (ptr l r (Write h concat))
      end
  end.

Definition NewMerkleTreeWithCostumHash (fuel : nat) (data : list byte)
    (segmentSize : Z) (hashfn : hash_factory)
    : outcome (MerkleTree * error) :=
  let mt := mkMerkleTree nil_ptr data segmentSize hashfn in
  segments <- chopData fuel data segmentSize ;;
  r <- buildTree fuel mt segments 0 (uint32.of_len data) ;;
  Returns (set_root mt r, None).

Definition NewMerkleTree (fuel : nat) (data : list byte) (segmentSize : Z)
    : outcome (MerkleTree * error) :=
  NewMerkleTreeWithCostumHash fuel data segmentSize sha256.New.

Definition GetRootHash (mt : MerkleTree) : outcome (list byte) :=
  h <- hash_of (root mt) ;;
  Returns (Sum h []).

(** [subTreeEquals] is a method on a pointer receiver and may be called
    on [nil_ptr]; both digests it compares are read from [n]. *)
Fixpoint subTreeEquals (n o : node_ptr) : bool :=
  match n, o with
  | nil_ptr, nil_ptr => true
  | nil_ptr, ptr _ _ _ => false
  | ptr _ _ _, nil_ptr => false
  | ptr n_left n_right n_hash, ptr o_left o_right _ =>
      if negb (bytes.Equal (Sum n_hash []) (Sum n_hash [])) then false
      else subTreeEquals n_left o_left && subTreeEquals n_right o_right
  end.

Definition Equals (mt other : MerkleTree) : bool :=
  subTreeEquals (root mt) (root other).

Definition Validate (fuel : nat) (mt : MerkleTree) : outcome (bool * error) :=
  r <- NewMerkleTreeWithCostumHash fuel (data mt) (segmentSize mt)
         (newHash mt) ;;
  match snd r with
  | Some _ => Returns (false, None)
  | None => Returns (Equals mt (fst r), None)
  end.

End merkletree.

Import merkletree.

(** ** Observations on trees *)

Fixpoint leaves (n : node_ptr) : Z :=
  match n with
  | nil_ptr => 0
  | ptr nil_ptr nil_ptr _ => 1
  | ptr l r _ => leaves l + leaves r
  end.

Fixpoint internal_nodes (n : node_ptr) : Z :=
  match n with
  | nil_ptr => 0
  | ptr nil_ptr nil_ptr _ => 0
  | ptr l r _ => 1 + internal_nodes l + internal_nodes r
  end.

(** [n.left] and [n.right] of a node that is present. *)
Definition left_of (n : node_ptr) : node_ptr :=
  match n with nil_ptr => nil_ptr | ptr l _ _ => l end.

Definition right_of (n : node_ptr) : node_ptr :=
  match n with nil_ptr => nil_ptr | ptr _ r _ => r end.

Definition is_nil (n : node_ptr) : bool :=
  match n with nil_ptr => true | _ => false end.

Definition is_leaf (n : node_ptr) : bool :=
  match n with ptr nil_ptr nil_ptr _ => true | _ => false end.

(** Every node has no child or two children. *)
Fixpoint full (n : node_ptr) : bool :=
  match n with
  | nil_ptr => true
  | ptr l r _ =>
      (is_nil l && is_nil r || negb (is_nil l) && negb (is_nil r))
      && full l && full r
  end.

(** The byte strings written to the leaves, left to right. *)
Fixpoint leaf_inputs (n : node_ptr) : list (list byte) :=
  match n with
  | nil_ptr => []
  | ptr nil_ptr nil_ptr h => [written h]
  | ptr l r _ => leaf_inputs l ++ leaf_inputs r
  end.

(** The digest stored at a node that is present. *)
Definition digest_of (n : node_ptr) : list byte :=
  match n with
  | nil_ptr => []
  | ptr _ _ h => Sum h []
  end.

(** Every leaf holds [fresh] after one write of [seg], and every other
    node holds [fresh] after one write of its children's digests. *)
Fixpoint hashed_from (fresh : hash_Hash) (seg : list byte) (n : node_ptr)
    : Prop :=
  match n with
  | nil_ptr => True
  | ptr nil_ptr nil_ptr h => h = Write fresh seg
  | ptr l r h =>
      h = Write fresh (digest_of l ++ digest_of r)
      /\ hashed_from fresh seg l /\ hashed_from fresh seg r
  end.

Definition ceil_div (a b : Z) : Z := (a + b - 1) / b.

Definition len (data : list byte) : Z := Z.of_nat (length data).

(** The segmenter's counter stays below [2^32]. *)
Definition no_wrap (data : list byte) (segmentSize : Z) : Prop :=
  segmentSize * ceil_div (len data) segmentSize < uint32.modulus.

Definition root_of (o : outcome (MerkleTree * error)) : outcome node_ptr :=
  r <- o ;; Returns (root (fst r)).

Definition root_hash_of (o : outcome (MerkleTree * error))
    : outcome (list byte) :=
  r <- o ;; GetRootHash (fst r).

(** The segmenter in the words of its contract: [n] windows of [size]
    bytes taken from left to right, the last one holding what remains. *)
Fixpoint windows (n size : nat) (data : list byte) : list (list byte) :=
  match n with
  | O => []
  | S n' => firstn size data :: windows n' size (skipn size data)
  end.

Definition chop (data : list byte) (segmentSize : Z) : list (list byte) :=
  windows (Z.to_nat (ceil_div (len data) segmentSize))
          (Z.to_nat segmentSize) data.

(** ** Arithmetic of [uint32] *)

Lemma wrap_small z : 0 <= z < uint32.modulus -> uint32.wrap z = z.
Proof. intros H. unfold uint32.wrap. now apply Z.mod_small. Qed.

Lemma wrap_range z : 0 <= uint32.wrap z < uint32.modulus.
Proof. unfold uint32.wrap, uint32.modulus. apply Z.mod_pos_bound. lia. Qed.

Lemma of_len_range data : 0 <= uint32.of_len data < uint32.modulus.
Proof. apply wrap_range. Qed.

Lemma of_len_le data : uint32.of_len data <= len data.
Proof.
  unfold uint32.of_len, uint32.wrap, uint32.modulus, len.
  apply Z.mod_le; lia.
Qed.

Lemma of_len_small data :
  len data < uint32.modulus -> uint32.of_len data = len data.
Proof. intros H. apply wrap_small. unfold len in *. lia. Qed.

Lemma min_is_Zmin a c : min a c = Z.min a c.
Proof. unfold min. destruct (Z.ltb_spec a c); lia. Qed.

Lemma ceil_div_bounds a c :
  1 <= c -> c * ceil_div a c - c < a <= c * ceil_div a c.
Proof.
  intros Hc. unfold ceil_div.
  pose proof (Z.div_mod (a + c - 1) c ltac:(lia)) as E.
  pose proof (Z.mod_pos_bound (a + c - 1) c ltac:(lia)) as B.
  lia.
Qed.

Lemma ceil_div_nonneg a c : 1 <= c -> 0 <= a -> 0 <= ceil_div a c.
Proof. intros Hc Ha. unfold ceil_div. apply Z.div_pos; lia. Qed.

Lemma ceil_div_unique a c q :
  1 <= c -> c * q - c < a <= c * q -> ceil_div a c = q.
Proof.
  intros Hc H. pose proof (ceil_div_bounds a c Hc) as B. nia.
Qed.

Lemma no_wrap_len data segmentSize :
  1 <= segmentSize -> no_wrap data segmentSize -> len data < uint32.modulus.
Proof.
  intros HS H. unfold no_wrap in H.
  pose proof (ceil_div_bounds (len data) segmentSize HS). lia.
Qed.

(** ** Slices *)

Lemma length_skipn_Z (data : list byte) i :
  0 <= i <= len data ->
  Z.of_nat (length (skipn (Z.to_nat i) data)) = len data - i.
Proof. intros H. unfold len in *. rewrite length_skipn. lia. Qed.

Lemma slice_returns data lo hi :
  0 <= lo <= hi -> hi <= len data ->
  bytes.slice data lo hi
  = Returns (firstn (Z.to_nat (hi - lo)) (skipn (Z.to_nat lo) data)).
Proof.
  intros H1 H2. unfold bytes.slice, len in *.
  destruct (Z.leb_spec 0 lo); [|lia].
  destruct (Z.leb_spec lo hi); [|lia].
  destruct (Z.leb_spec hi (Z.of_nat (length data))); [|lia].
  reflexivity.
Qed.

Lemma copy_make n (w : list byte) :
  length w = Z.to_nat n -> bytes.copy (bytes.make n) w = w.
Proof.
  intros H. unfold bytes.copy, bytes.make.
  rewrite repeat_length, <- H, Nat.min_id, firstn_all.
  rewrite skipn_all2 by (rewrite repeat_length; lia).
  apply app_nil_r.
Qed.

Lemma firstn_min_length (l : list byte) n :
  firstn (Nat.min n (length l)) l = firstn n l.
Proof.
  destruct (Nat.le_ge_cases n (length l)) as [H|H].
  - now rewrite Nat.min_l.
  - rewrite Nat.min_r by assumption.
    now rewrite firstn_all, firstn_all2.
Qed.

(** ** The loop of [chopData], one iteration at a time *)

Section chopData_steps.

Variable data : list byte.
Variable segmentSize : Z.
Hypothesis segmentSize_range : 0 <= segmentSize < uint32.modulus.

Let dataLen := uint32.of_len data.

(** The window copied at counter [i]. *)
Definition window_at (i : Z) : list byte :=
  firstn (Z.to_nat segmentSize) (skipn (Z.to_nat i) (firstn (Z.to_nat dataLen) data)).

Lemma chopData_loop_exit fuel i segments :
  dataLen <= i ->
  chopData_loop (S fuel) data dataLen segmentSize i segments
  = Returns segments.
Proof.
  intros H. simpl. destruct (Z.ltb_spec i dataLen); [lia|reflexivity].
Qed.

Lemma chopData_loop_step fuel i segments :
  0 <= i < dataLen ->
  chopData_loop (S fuel) data dataLen segmentSize i segments
  = chopData_loop fuel data dataLen segmentSize
      (uint32.add i segmentSize) (segments ++ [window_at i]).
Proof.
  intros Hi.
  pose proof (of_len_range data) as R. pose proof (of_len_le data) as Lle.
  fold dataLen in R, Lle.
  cbn [chopData_loop]. destruct (Z.ltb_spec i dataLen); [|lia].
  unfold uint32.sub. rewrite (wrap_small (dataLen - i)) by lia.
  rewrite min_is_Zmin.
  set (c := Z.min (dataLen - i) segmentSize).
  assert (Hc : 0 <= c <= dataLen - i) by (unfold c; lia).
  unfold uint32.add at 1. rewrite (wrap_small (i + c)) by lia.
  rewrite slice_returns by lia.
  cbn [bind].
  replace (i + c - i) with c by lia.
  assert (E : firstn (Z.to_nat c) (skipn (Z.to_nat i) data) = window_at i).
  { unfold window_at, c.
    rewrite <- (firstn_min_length (skipn _ (firstn _ _))).
    rewrite skipn_firstn_comm, firstn_firstn.
    f_equal. rewrite length_firstn, length_skipn. unfold len in *. lia. }
  rewrite copy_make.
  - now rewrite E.
  - rewrite length_firstn, length_skipn. unfold len in *. lia.
Qed.

End chopData_steps.

(** ** The segmenter when its counter does not wrap *)

Lemma window_at_small data segmentSize i :
  len data < uint32.modulus ->
  window_at data segmentSize i
  = firstn (Z.to_nat segmentSize) (skipn (Z.to_nat i) data).
Proof.
  intros H. unfold window_at. rewrite of_len_small by assumption.
  unfold len. now rewrite Nat2Z.id, firstn_all.
Qed.

Lemma chopData_loop_no_wrap data segmentSize :
  1 <= segmentSize -> len data < uint32.modulus ->
  forall (m : nat) i segments fuel,
    0 <= i -> i + Z.of_nat m * segmentSize < uint32.modulus ->
    len data - i <= Z.of_nat m * segmentSize ->
    (0 < Z.of_nat m -> (Z.of_nat m - 1) * segmentSize < len data - i) ->
    (m < fuel)%nat ->
    chopData_loop fuel data (uint32.of_len data) segmentSize i segments
    = Returns (segments
               ++ windows m (Z.to_nat segmentSize) (skipn (Z.to_nat i) data)).
Proof.
  intros HS HL. induction m as [|m IH]; intros i segments fuel Hi Hw Hle Hgt Hf.
  - destruct fuel as [|fuel]; [lia|].
    rewrite chopData_loop_exit by (rewrite of_len_small by assumption; lia).
    cbn [windows]. now rewrite app_nil_r.
  - destruct fuel as [|fuel]; [lia|].
    assert (Hlt : i < len data) by nia.
    rewrite chopData_loop_step
      by (rewrite ?of_len_small by assumption; unfold uint32.modulus in *; nia).
    unfold uint32.add. rewrite wrap_small by nia.
    rewrite IH; try nia.
    rewrite window_at_small by assumption.
    cbn [windows]. rewrite <- app_assoc. cbn [app].
    rewrite skipn_skipn.
    replace (Z.to_nat (i + segmentSize))
      with (Z.to_nat segmentSize + Z.to_nat i)%nat by lia.
    reflexivity.
Qed.

Lemma chopData_no_wrap data segmentSize fuel :
  1 <= segmentSize -> no_wrap data segmentSize ->
  (Z.to_nat (ceil_div (len data) segmentSize) < fuel)%nat ->
  chopData fuel data segmentSize = Returns (chop data segmentSize).
Proof.
  intros HS HW Hf.
  pose proof (no_wrap_len _ _ HS HW) as HL.
  pose proof (ceil_div_bounds (len data) segmentSize HS) as B.
  assert (0 <= len data) by (unfold len; lia).
  pose proof (ceil_div_nonneg (len data) segmentSize HS ltac:(lia)) as Q.
  unfold chopData, chop, no_wrap in *.
  rewrite (chopData_loop_no_wrap data segmentSize HS HL
             (Z.to_nat (ceil_div (len data) segmentSize)) 0 [] fuel);
    try (rewrite ?Z2Nat.id by lia; lia).
  reflexivity.
Qed.

(** ** Properties of [windows] *)

Lemma windows_length n size data : length (windows n size data) = n.
Proof.
  revert data. induction n as [|n IH]; intros data; cbn [windows length];
    [reflexivity | now rewrite IH].
Qed.

Lemma windows_concat n size (data : list byte) :
  concat (windows n size data) = firstn (n * size) data.
Proof.
  revert data. induction n as [|n IH]; intros data; cbn [windows concat].
  - reflexivity.
  - rewrite IH. cbn [Nat.mul].
    rewrite <- (firstn_skipn size (firstn (size + n * size) data)).
    rewrite firstn_firstn, Nat.min_l by lia.
    f_equal. rewrite skipn_firstn_comm. f_equal. lia.
Qed.

Lemma windows_nth n size (data : list byte) k :
  (k < n)%nat ->
  nth k (windows n size data) [] = firstn size (skipn (k * size) data).
Proof.
  revert data k. induction n as [|n IH]; intros data k Hk; [lia|].
  destruct k as [|k]; cbn [windows nth].
  - reflexivity.
  - rewrite IH by lia. rewrite skipn_skipn. do 2 f_equal. cbn [Nat.mul]. lia.
Qed.

Lemma windows_size n size (data : list byte) k :
  (k < n)%nat ->
  length (nth k (windows n size data) [])
  = Nat.min size (length data - k * size).
Proof.
  intros Hk. rewrite windows_nth by assumption.
  now rewrite length_firstn, length_skipn.
Qed.

(** ** The counters visited by the loop of [chopData] *)

(** The control flow of the loop does not look at the bytes. *)
Fixpoint counters (fuel : nat) (dataLen segmentSize i : Z)
    : outcome (list Z) :=
  match fuel with
  | O => OutOfFuel
  | S fuel' =>
      if i <? dataLen then
        r <- counters fuel' dataLen segmentSize (uint32.add i segmentSize) ;;
        Returns (i :: r)
      else Returns []
  end.

Lemma chopData_loop_counters data segmentSize :
  0 <= segmentSize < uint32.modulus ->
  forall fuel i segments,
    0 <= i ->
    chopData_loop fuel data (uint32.of_len data) segmentSize i segments
    = (r <- counters fuel (uint32.of_len data) segmentSize i ;;
       Returns (segments ++ map (window_at data segmentSize) r)).
Proof.
  intros HS. induction fuel as [|fuel IH]; intros i segments Hi.
  - reflexivity.
  - cbn [counters]. destruct (Z.ltb_spec i (uint32.of_len data)) as [Hlt|Hge].
    + rewrite chopData_loop_step by (assumption || lia).
      rewrite IH by apply wrap_range.
      destruct (counters fuel _ _ _); cbn [bind map]; try reflexivity.
      now rewrite <- app_assoc.
    + rewrite chopData_loop_exit by assumption.
      cbn [bind map]. now rewrite app_nil_r.
Qed.

Lemma counters_head fuel dataLen segmentSize i l :
  counters fuel dataLen segmentSize i = Returns l ->
  l = [] \/ exists r, l = i :: r.
Proof.
  destruct fuel as [|fuel]; cbn [counters]; [discriminate|].
  destruct (i <? dataLen).
  - destruct (counters fuel _ _ _); cbn [bind]; try discriminate.
    intros [= <-]. right. eauto.
  - intros [= <-]. now left.
Qed.

Lemma chopData_counters data segmentSize fuel :
  0 <= segmentSize < uint32.modulus ->
  chopData fuel data segmentSize
  = (r <- counters fuel (uint32.of_len data) segmentSize 0 ;;
     Returns (map (window_at data segmentSize) r)).
Proof.
  intros HS. unfold chopData.
  now rewrite chopData_loop_counters by (assumption || lia).
Qed.

(** When every counter the loop can reach is below [dataLen] the loop
    never exits: the counter is always a multiple of [g]. *)
Lemma counters_diverge dataLen segmentSize g :
  0 < g -> (g | segmentSize) -> (g | uint32.modulus) ->
  uint32.modulus - g < dataLen ->
  forall fuel i,
    0 <= i < uint32.modulus -> (g | i) ->
    counters fuel dataLen segmentSize i = OutOfFuel.
Proof.
  intros Hg HgS Hgm Hlen. induction fuel as [|fuel IH]; intros i Hi Hgi.
  - reflexivity.
  - cbn [counters].
    assert (Hlt : i < dataLen).
    { destruct Hgi as [q ->]. destruct Hgm as [p Hp].
      assert (q < p) by nia.
      assert ((q + 1) * g <= p * g) by (apply Z.mul_le_mono_nonneg_r; lia).
      lia. }
    destruct (Z.ltb_spec i dataLen); [|lia].
    rewrite IH; [reflexivity | apply wrap_range |].
    unfold uint32.add, uint32.wrap.
    rewrite Z.mod_eq by (unfold uint32.modulus; lia).
    apply Z.divide_sub_r.
    + now apply Z.divide_add_r.
    + now apply Z.divide_mul_l.
Qed.

Lemma chopData_diverges data segmentSize g :
  0 <= segmentSize < uint32.modulus ->
  0 < g -> (g | segmentSize) -> (g | uint32.modulus) ->
  uint32.modulus - g < uint32.of_len data ->
  forall fuel, chopData fuel data segmentSize = OutOfFuel.
Proof.
  intros HS Hg HgS Hgm Hlen fuel.
  rewrite chopData_counters by assumption.
  rewrite (counters_diverge _ _ g) by
    (assumption || (unfold uint32.modulus; lia) || apply Z.divide_0_r).
  reflexivity.
Qed.

(** ** [buildTree] *)

Lemma half_bounds n : 2 * (n / 2) <= n < 2 * (n / 2) + 2.
Proof.
  pose proof (Z.div_mod n 2 ltac:(lia)).
  pose proof (Z.mod_pos_bound n 2 ltac:(lia)). lia.
Qed.

(** Only the first segment, the segment size and the hash factory matter. *)
Lemma buildTree_first_segment fuel mt1 mt2 s rest1 rest2 start end_ :
  segmentSize mt1 = segmentSize mt2 -> newHash mt1 = newHash mt2 ->
  buildTree fuel mt1 (s :: rest1) start end_
  = buildTree fuel mt2 (s :: rest2) start end_.
Proof.
  intros ES EH. revert start end_.
  induction fuel as [|fuel IH]; intros start end_; cbn [buildTree].
  - reflexivity.
  - rewrite ES, EH. destruct (_ <=? _); [reflexivity|].
    now rewrite !IH.
Qed.

Lemma buildTree_no_segments fuel mt start end_ :
  buildTree (S fuel) mt [] start end_ = Returns nil_ptr.
Proof. reflexivity. Qed.

Lemma leaves_node l r h :
  is_nil l = false -> leaves (ptr l r h) = leaves l + leaves r.
Proof. destruct l; [discriminate | reflexivity]. Qed.

Lemma internal_nodes_node l r h :
  is_nil l = false ->
  internal_nodes (ptr l r h) = 1 + internal_nodes l + internal_nodes r.
Proof. destruct l; [discriminate | reflexivity]. Qed.

Lemma is_leaf_node l r h : is_nil l = false -> is_leaf (ptr l r h) = false.
Proof. destruct l; [discriminate | reflexivity]. Qed.

Lemma full_node l r h :
  full (ptr l r h)
  = (is_nil l && is_nil r || negb (is_nil l) && negb (is_nil r))
    && full l && full r.
Proof. reflexivity. Qed.

Lemma hashed_from_node fresh seg l r h :
  is_nil l = false ->
  h = Write fresh (digest_of l ++ digest_of r) ->
  hashed_from fresh seg l -> hashed_from fresh seg r ->
  hashed_from fresh seg (ptr l r h).
Proof. destruct l; [discriminate|]. intros _ E Hl Hr. now split. Qed.

Lemma digest_of_hash n h : hash_of n = Returns h -> digest_of n = Sum h [].
Proof. destruct n; [discriminate|]. now intros [= ->]. Qed.

Lemma hash_of_present n : is_nil n = false -> exists h, hash_of n = Returns h.
Proof. destruct n; [discriminate|]. intros _. cbn. eauto. Qed.

Section buildTree_shape.

Variable mt : MerkleTree.
Variable s : list byte.
Variable rest : list (list byte).
Hypothesis segmentSize_pos : 1 <= segmentSize mt.

Let fresh := newHash mt tt.
Let SS := segmentSize mt.

(** What holds of the tree built over a byte range of [n] bytes. *)
Definition built (n : Z) (t : node_ptr) : Prop :=
  is_nil t = false /\ full t = true /\ hashed_from fresh s t
  /\ 1 <= leaves t /\ n <= leaves t * SS
  /\ (n <= SS -> is_leaf t = true)
  /\ (SS < n -> is_leaf t = false)
  /\ (SS <= 2 * n -> leaves t * SS <= 2 * n)
  /\ internal_nodes t = leaves t - 1.

Lemma built_leaf n :
  n <= SS -> built n (ptr nil_ptr nil_ptr (Write fresh s)).
Proof.
  intros H. unfold built.
  cbn [is_nil is_leaf full leaves internal_nodes hashed_from andb orb negb].
  rewrite Z.mul_1_l. repeat split; lia.
Qed.

Lemma built_node n1 n2 l r lh rh :
  SS < n1 + n2 -> SS <= 2 * n1 -> SS <= 2 * n2 ->
  built n1 l -> built n2 r ->
  hash_of l = Returns lh -> hash_of r = Returns rh ->
  built (n1 + n2) (ptr l r (Write fresh (Sum lh [] ++ Sum rh []))).
Proof.
  intros Hn H1 H2 (Nl & Fl & Hl & L1 & Lo1 & _ & _ & Up1 & I1)
                  (Nr & Fr & Hr & R1 & Lo2 & _ & _ & Up2 & I2) El Er.
  specialize (Up1 H1). specialize (Up2 H2).
  unfold built.
  rewrite leaves_node, internal_nodes_node, is_leaf_node, full_node
    by assumption.
  rewrite Nl, Nr, Fl, Fr, Z.mul_add_distr_r.
  repeat split; try reflexivity; try lia.
  apply hashed_from_node; try assumption.
  now rewrite (digest_of_hash l lh), (digest_of_hash r rh).
Qed.

Lemma buildTree_built :
  forall fuel start end_,
    0 <= start <= end_ -> end_ < uint32.modulus ->
    end_ - start < Z.of_nat fuel ->
    exists t, buildTree fuel mt (s :: rest) start end_ = Returns t
              /\ built (end_ - start) t.
Proof.
  induction fuel as [|fuel IH]; intros start end_ Hr He Hf; [lia|].
  cbn [buildTree]. unfold uint32.sub.
  rewrite (wrap_small (end_ - start)) by lia.
  fold SS. destruct (Z.leb_spec (end_ - start) SS) as [Hle|Hgt].
  - eexists. split; [reflexivity|]. now apply built_leaf.
  - pose proof (half_bounds (end_ - start)) as HB.
    unfold uint32.add. rewrite wrap_small by lia.
    set (mid := start + (end_ - start) / 2).
    destruct (IH start mid) as (l & El & Bl); [lia..|].
    destruct (IH mid end_) as (r & Er & Br); [lia..|].
    rewrite El, Er. cbn [bind].
    pose proof Bl as (Nl & _). pose proof Br as (Nr & _).
    destruct (hash_of_present l Nl) as (lh & Hlh).
    destruct (hash_of_present r Nr) as (rh & Hrh).
    rewrite Hlh, Hrh. cbn [bind]. eexists. split; [reflexivity|].
    replace (end_ - start) with ((mid - start) + (end_ - mid)) by lia.
    apply built_node; try assumption; unfold mid, SS in *; lia.
Qed.

End buildTree_shape.

(** ** More fuel does not change a result *)

Lemma chopData_loop_mono fuel fuel' data dataLen segmentSize i segments r :
  (fuel <= fuel')%nat ->
  chopData_loop fuel data dataLen segmentSize i segments = Returns r ->
  chopData_loop fuel' data dataLen segmentSize i segments = Returns r.
Proof.
  revert fuel' i segments.
  induction fuel as [|fuel IH]; intros fuel' i segments Hle; [discriminate|].
  destruct fuel' as [|fuel']; [lia|].
  cbn [chopData_loop]. destruct (i <? dataLen); [|trivial].
  destruct (bytes.slice _ _ _); cbn [bind]; try discriminate.
  apply IH. lia.
Qed.

Lemma buildTree_mono fuel fuel' mt segments start end_ r :
  (fuel <= fuel')%nat ->
  buildTree fuel mt segments start end_ = Returns r ->
  buildTree fuel' mt segments start end_ = Returns r.
Proof.
  revert fuel' start end_ r.
  induction fuel as [|fuel IH]; intros fuel' start end_ r Hle; [discriminate|].
  destruct fuel' as [|fuel']; [lia|].
  cbn [buildTree]. destruct segments as [|s0 rest]; [trivial|].
  destruct (_ <=? _); [trivial|].
  destruct (buildTree fuel mt (s0 :: rest) start _) as [l| |] eqn:El;
    cbn [bind]; try discriminate.
  rewrite (IH fuel' _ _ l ltac:(lia) El). cbn [bind].
  destruct (buildTree fuel mt (s0 :: rest) _ end_) as [r'| |] eqn:Er;
    cbn [bind]; try discriminate.
  rewrite (IH fuel' _ _ r' ltac:(lia) Er). cbn [bind]. trivial.
Qed.

Lemma New_mono fuel fuel' data segmentSize hashfn r :
  (fuel <= fuel')%nat ->
  NewMerkleTreeWithCostumHash fuel data segmentSize hashfn = Returns r ->
  NewMerkleTreeWithCostumHash fuel' data segmentSize hashfn = Returns r.
Proof.
  intros Hle. unfold NewMerkleTreeWithCostumHash, chopData.
  destruct (chopData_loop fuel _ _ _ _ _) as [segs| |] eqn:Ec;
    cbn [bind]; try discriminate.
  rewrite (chopData_loop_mono _ _ _ _ _ _ _ _ Hle Ec). cbn [bind].
  destruct (buildTree fuel _ _ _ _) as [t| |] eqn:Eb;
    cbn [bind]; try discriminate.
  rewrite (buildTree_mono _ _ _ _ _ _ _ Hle Eb). cbn [bind]. trivial.
Qed.

(** Two runs that both return give the same result. *)
Lemma New_deterministic fuel fuel' data segmentSize hashfn r r' :
  NewMerkleTreeWithCostumHash fuel data segmentSize hashfn = Returns r ->
  NewMerkleTreeWithCostumHash fuel' data segmentSize hashfn = Returns r' ->
  r = r'.
Proof.
  intros H H'. destruct (Nat.le_ge_cases fuel fuel') as [L|L].
  - rewrite (New_mono _ _ _ _ _ _ L H) in H'. congruence.
  - rewrite (New_mono _ _ _ _ _ _ L H') in H. congruence.
Qed.

(** ** The constructor *)

Lemma NewMerkleTree_eq fuel data segmentSize :
  NewMerkleTree fuel data segmentSize
  = NewMerkleTreeWithCostumHash fuel data segmentSize sha256.New.
Proof. reflexivity. Qed.

Lemma New_length_multiple fuel data segmentSize hashfn :
  uint32.of_len data = 0 ->
  NewMerkleTreeWithCostumHash (S fuel) data segmentSize hashfn
  = Returns (mkMerkleTree nil_ptr data segmentSize hashfn, None).
Proof.
  intros H. unfold NewMerkleTreeWithCostumHash, chopData.
  cbn [chopData_loop]. rewrite H. reflexivity.
Qed.

Lemma New_diverges data segmentSize hashfn g :
  0 <= segmentSize < uint32.modulus ->
  0 < g -> (g | segmentSize) -> (g | uint32.modulus) ->
  uint32.modulus - g < uint32.of_len data ->
  forall fuel,
    NewMerkleTreeWithCostumHash fuel data segmentSize hashfn = OutOfFuel.
Proof.
  intros HS Hg H1 H2 H3 fuel. unfold NewMerkleTreeWithCostumHash.
  now rewrite (chopData_diverges data segmentSize g).
Qed.

Lemma chop_nonempty data segmentSize :
  1 <= segmentSize -> 0 < len data ->
  exists rest,
    chop data segmentSize = firstn (Z.to_nat segmentSize) data :: rest.
Proof.
  intros HS HL. unfold chop.
  pose proof (ceil_div_bounds (len data) segmentSize HS) as B.
  destruct (Z.to_nat (ceil_div (len data) segmentSize)) as [|m] eqn:E.
  - nia.
  - cbn [windows]. eauto.
Qed.

Lemma New_no_wrap data segmentSize hashfn fuel :
  1 <= segmentSize -> 0 < len data -> no_wrap data segmentSize ->
  (length data < fuel)%nat ->
  exists t,
    NewMerkleTreeWithCostumHash fuel data segmentSize hashfn
    = Returns (mkMerkleTree t data segmentSize hashfn, None)
    /\ built (mkMerkleTree nil_ptr data segmentSize hashfn)
             (firstn (Z.to_nat segmentSize) data) (len data) t.
Proof.
  intros HS HL HW Hf.
  pose proof (no_wrap_len _ _ HS HW) as Hlen.
  pose proof (ceil_div_bounds (len data) segmentSize HS) as B.
  unfold NewMerkleTreeWithCostumHash.
  rewrite chopData_no_wrap by (try assumption; unfold len in *; nia).
  destruct (chop_nonempty data segmentSize HS HL) as (rest & ->).
  cbn [bind]. rewrite of_len_small by assumption.
  destruct (buildTree_built
              (mkMerkleTree nil_ptr data segmentSize hashfn)
              (firstn (Z.to_nat segmentSize) data) rest HS
              fuel 0 (len data)) as (t & Et & Bt);
    try (unfold len in *; lia).
  rewrite Et. cbn [bind]. exists t. split; [reflexivity|].
  now rewrite Z.sub_0_r in Bt.
Qed.

(** ** [subTreeEquals] compares shapes *)

Fixpoint same_shape (n o : node_ptr) : bool :=
  match n, o with
  | nil_ptr, nil_ptr => true
  | ptr nl nr _, ptr ol or_ _ => same_shape nl ol && same_shape nr or_
  | _, _ => false
  end.

Lemma bytes_Equal_refl a : bytes.Equal a a = true.
Proof.
  induction a as [|x a IH]; cbn [bytes.Equal]; [reflexivity|].
  rewrite IH, andb_true_r. now apply Byte.byte_dec_lb.
Qed.

Lemma bytes_Equal_eq a c : bytes.Equal a c = true <-> a = c.
Proof.
  split; [|intros ->; apply bytes_Equal_refl].
  revert c. induction a as [|x a IH]; intros [|y c]; cbn [bytes.Equal];
    try discriminate; [reflexivity|].
  intros H. apply andb_true_iff in H as [H1 H2].
  apply Byte.byte_dec_bl in H1. f_equal; auto.
Qed.

Lemma subTreeEquals_same_shape n o : subTreeEquals n o = same_shape n o.
Proof.
  revert o. induction n as [|nl IHl nr IHr nh]; intros [|ol or_ oh];
    cbn [subTreeEquals same_shape]; try reflexivity.
  now rewrite bytes_Equal_refl, IHl, IHr.
Qed.

Lemma same_shape_refl n : same_shape n n = true.
Proof.
  induction n as [|l IHl r IHr h]; cbn [same_shape]; [reflexivity|].
  now rewrite IHl, IHr.
Qed.

(** ** Buffers too long to write down *)

Definition zeros (n : Z) : list byte := repeat "000"%byte (Z.to_nat n).

Lemma len_zeros n : 0 <= n -> len (zeros n) = n.
Proof. intros H. unfold len, zeros. rewrite repeat_length. lia. Qed.

Lemma of_len_zeros n : 0 <= n -> uint32.of_len (zeros n) = uint32.wrap n.
Proof.
  intros H. unfold uint32.of_len. fold (len (zeros n)). now rewrite len_zeros.
Qed.

(** ** The segmenter *)

(** C10, as amended: the segmenter is a function of its inputs; for every
    buffer of length L and segmentSize S >= 1 whose windows end below 2^32
    (S * ceil(L/S) < 2^32, so that the uint32 counter does not wrap), it
    returns the windows of S bytes taken from left to right, the last one
    holding min(S, remaining bytes); nothing is padded and nothing is
    dropped (the windows concatenate to the buffer); there are ceil(L/S) of
    them, and none for the empty buffer. *)
Theorem chopData_windows data segmentSize :
  1 <= segmentSize -> no_wrap data segmentSize ->
  exists segments,
    (forall fuel, (length data < fuel)%nat ->
       chopData fuel data segmentSize = Returns segments)
    /\ segments = chop data segmentSize
    /\ Z.of_nat (length segments) = ceil_div (len data) segmentSize
    /\ concat segments = data
    /\ (forall k, (k < length segments)%nat ->
          nth k segments []
          = firstn (Z.to_nat segmentSize)
              (skipn (k * Z.to_nat segmentSize) data)
          /\ Z.of_nat (length (nth k segments []))
             = Z.min segmentSize (len data - Z.of_nat k * segmentSize))
    /\ (data = [] -> segments = []).
Proof.
  intros HS HW.
  pose proof (ceil_div_bounds (len data) segmentSize HS) as B.
  assert (HL : 0 <= len data) by (unfold len; lia).
  pose proof (ceil_div_nonneg (len data) segmentSize HS HL) as Q.
  exists (chop data segmentSize). repeat split.
  - intros fuel Hf. apply chopData_no_wrap; try assumption.
    unfold len in *. nia.
  - unfold chop. rewrite windows_length. lia.
  - unfold chop. rewrite windows_concat. apply firstn_all2.
    unfold len in *. nia.
  - unfold chop in *. rewrite windows_length in H.
    now apply windows_nth.
  - unfold chop in *. rewrite windows_length in H.
    rewrite windows_size by assumption. unfold len in *. nia.
  - intros ->. unfold chop. cbn [length len Z.of_nat].
    replace (ceil_div 0 segmentSize) with 0; [reflexivity|].
    symmetry. apply ceil_div_unique; lia.
Qed.

(** The segments of [b"abcdefghi"] for segment size 4. *)
Lemma chopData_windows_witness :
  1 <= 4 /\ no_wrap (b "abcdefghi") 4 /\
  exists segments,
    (forall fuel, (length (b "abcdefghi") < fuel)%nat ->
       chopData fuel (b "abcdefghi") 4 = Returns segments)
    /\ segments = chop (b "abcdefghi") 4
    /\ Z.of_nat (length segments) = ceil_div (len (b "abcdefghi")) 4
    /\ concat segments = b "abcdefghi"
    /\ (forall k, (k < length segments)%nat ->
          nth k segments []
          = firstn (Z.to_nat 4) (skipn (k * Z.to_nat 4) (b "abcdefghi"))
          /\ Z.of_nat (length (nth k segments []))
             = Z.min 4 (len (b "abcdefghi") - Z.of_nat k * 4))
    /\ (b "abcdefghi" = [] -> segments = []).
Proof.
  split; [lia|]. split; [reflexivity|].
  apply (chopData_windows (b "abcdefghi") 4); [lia | reflexivity].
Defined.

(** C10 as stated fails: for a buffer of 2^31 + 1 bytes and segment size
    2^31 the counter goes 0, 2^31, 0, ... and the loop never returns. *)
Lemma chopData_wraps :
  1 <= 2147483648 /\ len (zeros 2147483649) = 2147483649 /\
  ~ (exists fuel segments,
       chopData fuel (zeros 2147483649) 2147483648 = Returns segments).
Proof.
  split; [lia|]. split; [now apply len_zeros|].
  intros (fuel & segments & H).
  rewrite (chopData_diverges (zeros 2147483649) 2147483648 2147483648) in H.
  - discriminate.
  - unfold uint32.modulus. lia.
  - lia.
  - apply Z.divide_refl.
  - exists 2. reflexivity.
  - rewrite of_len_zeros by lia. unfold uint32.modulus. reflexivity.
Qed.

(** ** Construction *)

Lemma is_leaf_leaves t : is_leaf t = true -> leaves t = 1.
Proof.
  destruct t as [|[|] [|] h]; cbn [is_leaf]; try discriminate. reflexivity.
Qed.

(** C8, as amended: construction returns a tree and the nil error, without
    panicking, whenever segmentSize >= 1 and the segmenter's uint32 counter
    does not wrap (segmentSize * ceil(L/segmentSize) < 2^32); for
    segmentSize = 0 and a buffer whose length is not a multiple of 2^32 it
    never returns (the loop of the segmenter does not advance). *)
Theorem construction_terminates data segmentSize hashfn :
  (1 <= segmentSize -> no_wrap data segmentSize ->
   exists mt,
     forall fuel, (length data < fuel)%nat ->
       NewMerkleTreeWithCostumHash fuel data segmentSize hashfn
       = Returns (mt, None))
  /\ (segmentSize = 0 -> uint32.of_len data <> 0 ->
      forall fuel,
        NewMerkleTreeWithCostumHash fuel data segmentSize hashfn = OutOfFuel).
Proof.
  split.
  - intros HS HW. destruct data as [|x data'] eqn:E.
    + eexists. intros [|fuel] Hf; [cbn in Hf; lia|].
      now apply New_length_multiple.
    + rewrite <- E in *.
      assert (HL : 0 < len data) by (rewrite E; unfold len; cbn; lia).
      destruct (New_no_wrap data segmentSize hashfn (S (length data))
                  HS HL HW ltac:(lia)) as (t & Et & _).
      eexists. intros fuel Hf.
      apply (New_mono (S (length data))); [lia | exact Et].
  - intros -> Hne.
    pose proof (of_len_range data).
    apply (New_diverges data 0 hashfn uint32.modulus);
      try (unfold uint32.modulus in *; lia).
    + apply Z.divide_0_r.
    + apply Z.divide_refl.
Qed.

(** Construction over [b"abcdefgh"] with segment size 4 returns, and over
    [b"a"] with segment size 0 it does not. *)
Lemma construction_terminates_witness :
  (1 <= 4 /\ no_wrap (b "abcdefgh") 4 /\
   exists mt,
     forall fuel, (length (b "abcdefgh") < fuel)%nat ->
       NewMerkleTreeWithCostumHash fuel (b "abcdefgh") 4 sha256.New
       = Returns (mt, None))
  /\ (uint32.of_len (b "a") <> 0 /\
      forall fuel,
        NewMerkleTreeWithCostumHash fuel (b "a") 0 sha256.New = OutOfFuel).
Proof.
  split.
  - split; [lia|]. split; [reflexivity|].
    apply (construction_terminates (b "abcdefgh") 4 sha256.New);
      [lia | reflexivity].
  - split; [discriminate|].
    apply (construction_terminates (b "a") 0 sha256.New);
      [reflexivity | discriminate].
Defined.

(** C8 as stated fails on long buffers: with 2^32 - 1 bytes and segment
    size 2^31 construction never returns (the counter goes 0, 2^31, 0,
    ...), and with 2^32 bytes, a length that is 0 as a uint32, and segment
    size 0 it returns an empty tree. *)
Lemma construction_wraps :
  (1 <= 2147483648 /\ len (zeros 4294967295) = 4294967295 /\
   ~ (exists fuel r,
        NewMerkleTree fuel (zeros 4294967295) 2147483648 = Returns r))
  /\ (0 < len (zeros 4294967296) /\
      ~ (forall fuel,
           NewMerkleTree fuel (zeros 4294967296) 0 = OutOfFuel)).
Proof.
  split; split; try lia.
  - split; [now apply len_zeros|]. intros (fuel & r & H).
    rewrite NewMerkleTree_eq in H.
    rewrite (New_diverges _ _ _ 2147483648) in H.
    + discriminate H.
    + unfold uint32.modulus. lia.
    + lia.
    + apply Z.divide_refl.
    + exists 2. reflexivity.
    + rewrite of_len_zeros by lia. unfold uint32.modulus. reflexivity.
  - rewrite len_zeros; lia.
  - intros H. specialize (H 1%nat). rewrite NewMerkleTree_eq in H.
    rewrite New_length_multiple in H.
    + discriminate H.
    + rewrite of_len_zeros by lia. reflexivity.
Qed.

(** C4, as amended: for every non-empty buffer of length L and
    segmentSize S >= 1 with S * ceil(L/S) < 2^32, the constructed tree has
    a present root and is a full binary tree (every node has 0 or 2
    children); its leaf count is at least ceil(L/S), is 1 when L <= S and
    is at most 2L/S when L > S; there is one internal node fewer than
    there are leaves. *)
Theorem tree_shape data segmentSize hashfn :
  0 < len data -> 1 <= segmentSize -> no_wrap data segmentSize ->
  exists mt,
    (forall fuel, (length data < fuel)%nat ->
       NewMerkleTreeWithCostumHash fuel data segmentSize hashfn
       = Returns (mt, None))
    /\ is_nil (root mt) = false
    /\ full (root mt) = true
    /\ ceil_div (len data) segmentSize <= leaves (root mt)
    /\ (len data <= segmentSize -> leaves (root mt) = 1)
    /\ (segmentSize < len data ->
        leaves (root mt) * segmentSize <= 2 * len data)
    /\ internal_nodes (root mt) = leaves (root mt) - 1.
Proof.
  intros HL HS HW.
  destruct (New_no_wrap data segmentSize hashfn (S (length data))
              HS HL HW ltac:(lia))
    as (t & Et & Nt & Ft & _ & L1 & Lo & Leaf & _ & Up & It).
  cbn [merkletree.segmentSize] in *.
  pose proof (ceil_div_bounds (len data) segmentSize HS) as B.
  exists (mkMerkleTree t data segmentSize hashfn).
  cbn [root]. repeat apply conj; try assumption.
  - intros fuel Hf. apply (New_mono (S (length data))); [lia | exact Et].
  - destruct (Z.le_gt_cases (ceil_div (len data) segmentSize) (leaves t))
      as [|G]; [assumption|exfalso].
    assert (segmentSize * (leaves t + 1)
            <= segmentSize * ceil_div (len data) segmentSize)
      by (apply Z.mul_le_mono_nonneg_l; lia).
    lia.
  - intros H. now apply is_leaf_leaves, Leaf.
  - intros H. apply Up. lia.
Qed.

(** The tree over [b"abcdefghijkl"] with segment size 5. *)
Lemma tree_shape_witness :
  0 < len (b "abcdefghijkl") /\ 1 <= 5 /\ no_wrap (b "abcdefghijkl") 5 /\
  exists mt,
    (forall fuel, (length (b "abcdefghijkl") < fuel)%nat ->
       NewMerkleTreeWithCostumHash fuel (b "abcdefghijkl") 5 sha256.New
       = Returns (mt, None))
    /\ is_nil (root mt) = false
    /\ full (root mt) = true
    /\ ceil_div (len (b "abcdefghijkl")) 5 <= leaves (root mt)
    /\ (len (b "abcdefghijkl") <= 5 -> leaves (root mt) = 1)
    /\ (5 < len (b "abcdefghijkl") ->
        leaves (root mt) * 5 <= 2 * len (b "abcdefghijkl"))
    /\ internal_nodes (root mt) = leaves (root mt) - 1.
Proof.
  split; [reflexivity|]. split; [lia|]. split; [reflexivity|].
  apply (tree_shape (b "abcdefghijkl") 5 sha256.New);
    [reflexivity | lia | reflexivity].
Defined.

(** ** Runs on short buffers *)

Definition leaf_node (hashfn : hash_factory) (seg : list byte) : node_ptr :=
  ptr nil_ptr nil_ptr (Write (hashfn tt) seg).

Definition inner_node (hashfn : hash_factory) (l r : node_ptr) : node_ptr :=
  ptr l r (Write (hashfn tt) (digest_of l ++ digest_of r)).

Lemma run_abcdefghi hashfn k :
  NewMerkleTreeWithCostumHash (4 + k) (b "abcdefghi") 4 hashfn
  = Returns
      (mkMerkleTree
         (inner_node hashfn
            (leaf_node hashfn (b "abcd"))
            (inner_node hashfn
               (leaf_node hashfn (b "abcd")) (leaf_node hashfn (b "abcd"))))
         (b "abcdefghi") 4 hashfn,
       None).
Proof. apply (New_mono 4); [lia | reflexivity]. Qed.

Lemma run_abcdefgh hashfn k :
  NewMerkleTreeWithCostumHash (3 + k) (b "abcdefgh") 4 hashfn
  = Returns
      (mkMerkleTree
         (inner_node hashfn
            (leaf_node hashfn (b "abcd")) (leaf_node hashfn (b "abcd")))
         (b "abcdefgh") 4 hashfn,
       None).
Proof. apply (New_mono 3); [lia | reflexivity]. Qed.

Lemma run_single_leaf hashfn data k :
  0 < len data <= 4 ->
  NewMerkleTreeWithCostumHash (2 + k) data 4 hashfn
  = Returns (mkMerkleTree (leaf_node hashfn data) data 4 hashfn, None).
Proof.
  intros H. apply (New_mono 2); [lia|].
  assert (HL : len data < uint32.modulus) by (unfold uint32.modulus; lia).
  unfold NewMerkleTreeWithCostumHash.
  rewrite chopData_no_wrap; try lia.
  - unfold chop.
    replace (ceil_div (len data) 4) with 1 by (symmetry; apply ceil_div_unique; lia).
    change (Z.to_nat 1) with 1%nat. cbn [windows bind].
    rewrite firstn_all2 by (unfold len in *; lia).
    cbn [buildTree merkletree.segmentSize merkletree.newHash].
    rewrite of_len_small by assumption.
    unfold uint32.sub. rewrite Z.sub_0_r, wrap_small by lia.
    destruct (Z.leb_spec (len data) 4); [reflexivity | lia].
  - unfold no_wrap.
    replace (ceil_div (len data) 4) with 1 by (symmetry; apply ceil_div_unique; lia).
    unfold uint32.modulus. lia.
  - replace (ceil_div (len data) 4) with 1 by (symmetry; apply ceil_div_unique; lia).
    cbn. lia.
Qed.

(** C4 as stated fails: a 12-byte buffer cut into segments of 5 bytes gets
    four leaves (byte ranges of 3 bytes each), not ceil(12/5) = 3; and a
    buffer of 2^32 bytes, whose length is 0 as a uint32, gets no root. *)
Lemma leaf_count_differs :
  (0 < len (b "abcdefghijkl") /\ 1 <= 5 /\
   ~ (exists fuel mt,
        NewMerkleTree fuel (b "abcdefghijkl") 5 = Returns (mt, None)
        /\ leaves (root mt) = ceil_div (len (b "abcdefghijkl")) 5))
  /\ (0 < len (zeros 4294967296) /\ 1 <= 4 /\
      ~ (exists fuel mt,
           NewMerkleTree fuel (zeros 4294967296) 4 = Returns (mt, None)
           /\ is_nil (root mt) = false)).
Proof.
  split; (split; [|split; [lia|]]).
  - reflexivity.
  - intros (fuel & mt & H & L).
    assert (E : (r <- NewMerkleTree 4 (b "abcdefghijkl") 5 ;;
                 Returns (leaves (root (fst r)))) = Returns 4)
      by (vm_compute; reflexivity).
    destruct (NewMerkleTree 4 (b "abcdefghijkl") 5) as [r0| |] eqn:E0;
      try discriminate.
    rewrite (New_deterministic _ _ _ _ _ _ _ E0 H) in E.
    cbn [bind fst] in E. rewrite L in E. discriminate.
  - rewrite len_zeros; lia.
  - intros (fuel & mt & H & N).
    rewrite NewMerkleTree_eq in H.
    assert (E : NewMerkleTreeWithCostumHash 1 (zeros 4294967296) 4 sha256.New
                = Returns (mkMerkleTree nil_ptr (zeros 4294967296) 4
                             sha256.New, None)).
    { apply New_length_multiple. rewrite of_len_zeros by lia. reflexivity. }
    pose proof (New_deterministic _ _ _ _ _ _ _ H E) as D.
    injection D as ->. cbn [root is_nil] in N. discriminate N.
Qed.

(** ** The empty buffer *)

(** C7, as amended: a buffer of length 0 yields a tree whose root is
    absent, for every segment size, and GetRootHash on that tree panics
    with a nil dereference; it has no error result to return. *)
Theorem empty_buffer segmentSize hashfn fuel :
  NewMerkleTreeWithCostumHash (S fuel) [] segmentSize hashfn
  = Returns (mkMerkleTree nil_ptr [] segmentSize hashfn, None)
  /\ GetRootHash (mkMerkleTree nil_ptr [] segmentSize hashfn) = Panics.
Proof. split; reflexivity. Qed.

(** C7 as stated fails: GetRootHash on the tree of the empty buffer does
    not end in anything but a panic. *)
Lemma GetRootHash_empty_panics :
  ~ (forall mt,
       NewMerkleTree 1 [] 4 = Returns (mt, None) ->
       root mt = nil_ptr /\ GetRootHash mt <> Panics).
Proof.
  intros H.
  destruct (H (mkMerkleTree nil_ptr [] 4 sha256.New) eq_refl) as [_ N].
  now apply N.
Qed.

(** ** [b"abcdefghi"] with segment size 4 *)

(** C9, as amended: for buffer b"abcdefghi" with segment size 4,
    segmentation yields [b"abcd", b"efgh", b"i"], and the constructed tree
    has exactly 3 leaves and 2 internal nodes; the root's left subtree is
    a single leaf (byte range [0,4)) and the root's right subtree is an
    internal node with two leaves (byte ranges [4,6) and [6,9)). *)
Theorem abcdefghi_shape hashfn k :
  chopData (4 + k) (b "abcdefghi") 4
  = Returns [b "abcd"; b "efgh"; b "i"]
  /\ exists l rl rr h rh,
       root_of (NewMerkleTreeWithCostumHash (4 + k) (b "abcdefghi") 4 hashfn)
       = Returns (ptr l (ptr rl rr rh) h)
       /\ is_leaf l = true /\ is_leaf rl = true /\ is_leaf rr = true
       /\ leaves (ptr l (ptr rl rr rh) h) = 3
       /\ internal_nodes (ptr l (ptr rl rr rh) h) = 2.
Proof.
  split.
  - apply (chopData_loop_mono 4); [lia | reflexivity].
  - rewrite run_abcdefghi. cbn [root_of bind fst root inner_node].
    do 5 eexists. split; [reflexivity|]. repeat split.
Qed.

(** C9 as stated fails: the root's left subtree does not hold two leaves
    and the root's right subtree is not a leaf. *)
Lemma abcdefghi_left_is_leaf :
  ~ (exists fuel mt l r h,
       NewMerkleTree fuel (b "abcdefghi") 4 = Returns (mt, None)
       /\ root mt = ptr l r h
       /\ leaves l = 2 /\ is_leaf r = true).
Proof.
  intros (fuel & mt & l & r & h & H & R & L & F).
  pose proof (run_abcdefghi sha256.New 0) as E.
  pose proof (New_deterministic _ _ _ _ _ _ _ H E) as D.
  injection D as ->. cbn [root] in R.
  apply (f_equal left_of) in R. unfold inner_node at 1 in R.
  cbn [left_of] in R. subst l.
  unfold leaf_node in L. cbn [leaves] in L. lia.
Qed.

(** ** Only the first segment is hashed *)

Lemma window_at_0 data segmentSize :
  0 <= segmentSize ->
  window_at data segmentSize 0
  = firstn (Z.to_nat (Z.min segmentSize (uint32.of_len data))) data.
Proof.
  intros HS. pose proof (of_len_range data).
  unfold window_at. change (Z.to_nat 0) with 0%nat. cbn [skipn].
  rewrite firstn_firstn. f_equal. lia.
Qed.

Lemma of_len_length d1 d2 :
  length d1 = length d2 -> uint32.of_len d1 = uint32.of_len d2.
Proof. intros E. unfold uint32.of_len. now rewrite E. Qed.

Lemma first_window_agree d1 d2 segmentSize :
  0 <= segmentSize -> length d1 = length d2 ->
  firstn (Z.to_nat (Z.min segmentSize (len d1))) d1
  = firstn (Z.to_nat (Z.min segmentSize (len d1))) d2 ->
  window_at d1 segmentSize 0 = window_at d2 segmentSize 0.
Proof.
  intros HS EL EF. rewrite !window_at_0 by assumption.
  rewrite <- (of_len_length d1 d2 EL).
  pose proof (of_len_le d1). pose proof (of_len_range d1).
  set (m := Z.to_nat (Z.min segmentSize (uint32.of_len d1))).
  set (M := Z.to_nat (Z.min segmentSize (len d1))) in *.
  assert (Hm : Nat.min m M = m) by (unfold m, M; lia).
  rewrite <- Hm, <- !firstn_firstn. now rewrite EF.
Qed.

Lemma New_first_segment d1 d2 segmentSize hashfn :
  0 <= segmentSize < uint32.modulus -> length d1 = length d2 ->
  window_at d1 segmentSize 0 = window_at d2 segmentSize 0 ->
  forall fuel,
    root_of (NewMerkleTreeWithCostumHash fuel d1 segmentSize hashfn)
    = root_of (NewMerkleTreeWithCostumHash fuel d2 segmentSize hashfn).
Proof.
  intros HS EL EW fuel. unfold root_of, NewMerkleTreeWithCostumHash.
  rewrite !chopData_counters by assumption.
  rewrite <- (of_len_length d1 d2 EL).
  destruct (counters fuel (uint32.of_len d1) segmentSize 0) as [l| |] eqn:E;
    cbn [bind]; try reflexivity.
  destruct (counters_head _ _ _ _ _ E) as [->|(r & ->)]; cbn [map].
  - destruct fuel as [|fuel]; reflexivity.
  - rewrite EW.
    rewrite (buildTree_first_segment fuel
               (mkMerkleTree nil_ptr d1 segmentSize hashfn)
               (mkMerkleTree nil_ptr d2 segmentSize hashfn)
               (window_at d2 segmentSize 0)
               (map (window_at d1 segmentSize) r)
               (map (window_at d2 segmentSize) r)) by reflexivity.
    destruct (buildTree fuel _ _ _ _); reflexivity.
Qed.

Lemma root_hash_of_root_of o :
  root_hash_of o
  = (n <- root_of o ;; h <- hash_of n ;; Returns (Sum h [])).
Proof. destruct o as [[mt e]| |]; reflexivity. Qed.

(** C6: for segmentSize S >= 1, two buffers of equal length that agree on
    their first min(S, length) bytes get identical root digests (indeed
    identical trees) from construction with the same S and the same hash
    factory, whatever the number of steps allowed; and when construction
    returns (non-empty buffer, no wrap-around of the counter) every leaf
    of both trees holds the hash of the first segment. *)
Theorem root_depends_on_first_segment d1 d2 segmentSize hashfn :
  1 <= segmentSize < uint32.modulus -> length d1 = length d2 ->
  firstn (Z.to_nat (Z.min segmentSize (len d1))) d1
  = firstn (Z.to_nat (Z.min segmentSize (len d1))) d2 ->
  (forall fuel,
     root_hash_of (NewMerkleTreeWithCostumHash fuel d1 segmentSize hashfn)
     = root_hash_of (NewMerkleTreeWithCostumHash fuel d2 segmentSize hashfn))
  /\ (0 < len d1 -> no_wrap d1 segmentSize ->
      exists t digest,
        hashed_from (hashfn tt) (firstn (Z.to_nat segmentSize) d1) t
        /\ forall fuel, (length d1 < fuel)%nat ->
             root_of (NewMerkleTreeWithCostumHash fuel d1 segmentSize hashfn)
             = Returns t
             /\ root_of
                  (NewMerkleTreeWithCostumHash fuel d2 segmentSize hashfn)
                = Returns t
             /\ root_hash_of
                  (NewMerkleTreeWithCostumHash fuel d1 segmentSize hashfn)
                = Returns digest
             /\ root_hash_of
                  (NewMerkleTreeWithCostumHash fuel d2 segmentSize hashfn)
                = Returns digest).
Proof.
  intros HS EL EF.
  assert (EW : window_at d1 segmentSize 0 = window_at d2 segmentSize 0)
    by (apply first_window_agree; (assumption || lia)).
  assert (ER : forall fuel,
             root_of (NewMerkleTreeWithCostumHash fuel d1 segmentSize hashfn)
             = root_of
                 (NewMerkleTreeWithCostumHash fuel d2 segmentSize hashfn))
    by (apply New_first_segment; (assumption || lia)).
  split.
  - intros fuel. now rewrite !root_hash_of_root_of, ER.
  - intros HL HW.
    destruct (New_no_wrap d1 segmentSize hashfn (S (length d1))
                ltac:(lia) HL HW ltac:(lia))
      as (t & Et & Nt & _ & Ht & _).
    destruct (hash_of_present t Nt) as (h & Hh).
    exists t, (Sum h []). split; [exact Ht|].
    intros fuel Hf.
    assert (R1 : root_of
                   (NewMerkleTreeWithCostumHash fuel d1 segmentSize hashfn)
                 = Returns t).
    { rewrite (New_mono (S (length d1)) fuel _ _ _ _ ltac:(lia) Et).
      reflexivity. }
    assert (R2 : root_of
                   (NewMerkleTreeWithCostumHash fuel d2 segmentSize hashfn)
                 = Returns t) by (now rewrite <- ER).
    repeat apply conj; try assumption.
    + rewrite root_hash_of_root_of, R1. cbn [bind]. now rewrite Hh.
    + rewrite root_hash_of_root_of, R2. cbn [bind]. now rewrite Hh.
Qed.

(** [b"abcdefgh"] and [b"abcdwxyz"] agree on their first four bytes. *)
Lemma root_depends_on_first_segment_witness :
  1 <= 4 < uint32.modulus
  /\ length (b "abcdefgh") = length (b "abcdwxyz")
  /\ firstn (Z.to_nat (Z.min 4 (len (b "abcdefgh")))) (b "abcdefgh")
     = firstn (Z.to_nat (Z.min 4 (len (b "abcdefgh")))) (b "abcdwxyz")
  /\ 0 < len (b "abcdefgh") /\ no_wrap (b "abcdefgh") 4
  /\ (forall fuel,
        root_hash_of
          (NewMerkleTreeWithCostumHash fuel (b "abcdefgh") 4 sha256.New)
        = root_hash_of
            (NewMerkleTreeWithCostumHash fuel (b "abcdwxyz") 4 sha256.New))
  /\ exists t digest,
       hashed_from (sha256.New tt) (firstn (Z.to_nat 4) (b "abcdefgh")) t
       /\ forall fuel, (length (b "abcdefgh") < fuel)%nat ->
            root_of
              (NewMerkleTreeWithCostumHash fuel (b "abcdefgh") 4 sha256.New)
            = Returns t
            /\ root_of
                 (NewMerkleTreeWithCostumHash fuel (b "abcdwxyz") 4
                    sha256.New)
               = Returns t
            /\ root_hash_of
                 (NewMerkleTreeWithCostumHash fuel (b "abcdefgh") 4
                    sha256.New)
               = Returns digest
            /\ root_hash_of
                 (NewMerkleTreeWithCostumHash fuel (b "abcdwxyz") 4
                    sha256.New)
               = Returns digest.
Proof.
  split; [unfold uint32.modulus; lia|].
  split; [reflexivity|]. split; [reflexivity|].
  split; [reflexivity|]. split; [reflexivity|].
  destruct (root_depends_on_first_segment
              (b "abcdefgh") (b "abcdwxyz") 4 sha256.New) as [A B];
    [unfold uint32.modulus; lia | reflexivity | reflexivity |].
  split; [exact A|]. apply B; reflexivity.
Defined.

(** ** The defects *)

(** The buffer with the byte at [pos] complemented. *)
Definition flip (pos : nat) (data : list byte) : list byte :=
  match nth_error data pos with
  | Some x =>
      firstn pos data
      ++ bytes.of_Z (Z.lxor (bytes.to_Z x) 255) :: skipn (S pos) data
  | None => data
  end.

(** C1 at b"abcdefgh" with segment size 4: the segments are b"abcd" and
    b"efgh", but both leaves are written b"abcd", so that GetRootHash
    returns H(H(b"abcd") || H(b"abcd")) and not H(H(b"abcd") || H(b"efgh"))
    for H = SHA-256. *)
Theorem leaves_hash_first_segment k :
  chopData (3 + k) (b "abcdefgh") 4 = Returns [b "abcd"; b "efgh"]
  /\ exists mt,
       NewMerkleTree (3 + k) (b "abcdefgh") 4 = Returns (mt, None)
       /\ leaf_inputs (root mt) = [b "abcd"; b "abcd"]
       /\ GetRootHash mt
          = Returns (sha256.sum256 (sha256.sum256 (b "abcd")
                                    ++ sha256.sum256 (b "abcd")))
       /\ GetRootHash mt
          <> Returns (sha256.sum256 (sha256.sum256 (b "abcd")
                                     ++ sha256.sum256 (b "efgh"))).
Proof.
  split.
  - apply (chopData_loop_mono 3); [lia | reflexivity].
  - eexists. split; [rewrite NewMerkleTree_eq; apply run_abcdefgh|].
    split; [reflexivity|]. split; [vm_compute; reflexivity|].
    vm_compute. intros E. discriminate E.
Qed.

Lemma run_abcdefgh_flipped hashfn k :
  NewMerkleTreeWithCostumHash (3 + k) (flip 4 (b "abcdefgh")) 4 hashfn
  = Returns
      (mkMerkleTree
         (inner_node hashfn
            (leaf_node hashfn (b "abcd")) (leaf_node hashfn (b "abcd")))
         (flip 4 (b "abcdefgh")) 4 hashfn,
       None).
Proof. apply (New_mono 3); [lia | reflexivity]. Qed.

(** C5 at b"abcdefgh" with segment size 4: complementing the byte at
    position 4 and rebuilding gives a different buffer with the same root
    digest. *)
Theorem tamper_outside_first_segment k :
  flip 4 (b "abcdefgh") <> b "abcdefgh"
  /\ length (flip 4 (b "abcdefgh")) = length (b "abcdefgh")
  /\ exists digest,
       root_hash_of (NewMerkleTree (3 + k) (b "abcdefgh") 4)
       = Returns digest
       /\ root_hash_of (NewMerkleTree (3 + k) (flip 4 (b "abcdefgh")) 4)
          = Returns digest.
Proof.
  split; [intros E; discriminate E|]. split; [reflexivity|].
  eexists. rewrite !NewMerkleTree_eq. split.
  - rewrite run_abcdefgh. reflexivity.
  - rewrite run_abcdefgh_flipped. reflexivity.
Qed.

Lemma Equals_same_shape mt other :
  Equals mt other = same_shape (root mt) (root other).
Proof. apply subTreeEquals_same_shape. Qed.

Lemma Equals_refl mt : Equals mt mt = true.
Proof. rewrite Equals_same_shape. apply same_shape_refl. Qed.

(** C2 at the trees of b"abcd", b"abce" and b"abc" with segment size 4:
    the three trees have pairwise different root digests, and Equals
    returns true on the first against each of the others. *)
Theorem Equals_ignores_digests k :
  exists mt other shorter,
    NewMerkleTree (2 + k) (b "abcd") 4 = Returns (mt, None)
    /\ NewMerkleTree (2 + k) (b "abce") 4 = Returns (other, None)
    /\ NewMerkleTree (2 + k) (b "abc") 4 = Returns (shorter, None)
    /\ GetRootHash mt <> GetRootHash other
    /\ GetRootHash mt <> GetRootHash shorter
    /\ Equals mt mt = true
    /\ Equals mt other = true
    /\ Equals mt shorter = true.
Proof.
  do 3 eexists. rewrite !NewMerkleTree_eq.
  split; [apply run_single_leaf; cbn; lia|].
  split; [apply run_single_leaf; cbn; lia|].
  split; [apply run_single_leaf; cbn; lia|].
  split; [vm_compute; intros E; discriminate E|].
  split; [vm_compute; intros E; discriminate E|].
  split; [apply Equals_refl|].
  split; rewrite Equals_same_shape; reflexivity.
Qed.

(** C3 at the tree of b"abcd" with segment size 4: Validate returns true
    on the tree as built and still returns true after the stored buffer is
    replaced by b"abce". *)
Theorem Validate_ignores_data k :
  exists mt,
    NewMerkleTree (2 + k) (b "abcd") 4 = Returns (mt, None)
    /\ Validate (2 + k) mt = Returns (true, None)
    /\ set_data mt (b "abce") <> mt
    /\ Validate (2 + k) (set_data mt (b "abce")) = Returns (true, None).
Proof.
  eexists. rewrite NewMerkleTree_eq.
  split; [apply run_single_leaf; cbn; lia|].
  unfold Validate, set_data.
  cbn [data merkletree.segmentSize newHash root].
  rewrite !run_single_leaf by (cbn; lia). cbn [bind snd fst].
  rewrite !Equals_same_shape. cbn [root].
  split; [reflexivity|]. split; [|reflexivity].
  intros E. apply (f_equal data) in E. cbn [data] in E. discriminate E.
Qed.

(** * Further properties of the package *)

(** ** What the segmenter returns on any buffer *)

Lemma counters_no_panic fuel dataLen segmentSize i :
  counters fuel dataLen segmentSize i <> Panics.
Proof.
  revert i. induction fuel as [|fuel IH]; intros i; cbn [counters].
  - discriminate.
  - destruct (i <? dataLen); [|discriminate].
    specialize (IH (uint32.add i segmentSize)).
    destruct (counters fuel _ _ _); cbn [bind]; congruence.
Qed.

Lemma counters_range fuel dataLen segmentSize :
  forall i l,
    0 <= i -> counters fuel dataLen segmentSize i = Returns l ->
    Forall (fun j => 0 <= j < dataLen) l.
Proof.
  induction fuel as [|fuel IH]; intros i l Hi; cbn [counters];
    [discriminate|].
  destruct (Z.ltb_spec i dataLen) as [Hlt|Hge].
  - destruct (counters fuel _ _ (uint32.add i segmentSize)) as [r| |] eqn:E;
      cbn [bind]; try discriminate.
    intros [= <-]. constructor; [lia|].
    apply (IH (uint32.add i segmentSize)); [apply wrap_range | exact E].
  - intros [= <-]. constructor.
Qed.

Lemma window_at_slice data segmentSize j :
  0 <= segmentSize -> 0 <= j < uint32.of_len data ->
  let w := window_at data segmentSize j in
  len w = Z.min segmentSize (uint32.of_len data - j)
  /\ w = firstn (Z.to_nat (len w)) (skipn (Z.to_nat j) data).
Proof.
  intros HS Hj. pose proof (of_len_le data) as Hle. cbv zeta.
  assert (L : len (window_at data segmentSize j)
              = Z.min segmentSize (uint32.of_len data - j)).
  { unfold window_at, len in *.
    rewrite length_firstn, length_skipn, length_firstn. lia. }
  split; [exact L|]. rewrite L. unfold window_at.
  rewrite skipn_firstn_comm, firstn_firstn. f_equal. lia.
Qed.

(** [chopData] never panics: the slice expression stays within the buffer
    for every buffer and every segment size. *)
Theorem chopData_never_panics fuel data segmentSize :
  0 <= segmentSize < uint32.modulus ->
  chopData fuel data segmentSize <> Panics.
Proof.
  intros HS. rewrite chopData_counters by assumption.
  pose proof (counters_no_panic fuel (uint32.of_len data) segmentSize 0).
  destruct (counters fuel _ _ _); cbn [bind]; congruence.
Qed.

Lemma chopData_never_panics_witness :
  0 <= 0 < uint32.modulus /\ chopData 7 (b "abcdefghi") 0 <> Panics.
Proof.
  split; [unfold uint32.modulus; lia|].
  apply (chopData_never_panics 7 (b "abcdefghi") 0).
  unfold uint32.modulus; lia.
Defined.

(** Whenever [chopData] returns, also after its counter has wrapped, every
    segment is a non-empty run of at most [segmentSize] consecutive bytes
    of the buffer. *)
Theorem chopData_segments_are_slices fuel data segmentSize segments :
  1 <= segmentSize < uint32.modulus ->
  chopData fuel data segmentSize = Returns segments ->
  Forall (fun s =>
            1 <= len s <= segmentSize
            /\ exists j, 0 <= j /\ j + len s <= len data
                 /\ s = firstn (Z.to_nat (len s)) (skipn (Z.to_nat j) data))
         segments.
Proof.
  intros HS. rewrite chopData_counters by lia.
  destruct (counters fuel _ _ _) as [l| |] eqn:E; cbn [bind]; try discriminate.
  intros [= <-]. pose proof (counters_range _ _ _ _ _ (Z.le_refl 0) E) as R.
  pose proof (of_len_le data) as Hle.
  clear E. induction R as [|j l Hj R IH]; cbn [map]; [constructor|].
  constructor; [|exact IH].
  destruct (window_at_slice data segmentSize j ltac:(lia) Hj) as [L W].
  split; [lia|]. exists j. repeat apply conj; [lia | lia | exact W].
Qed.

Lemma chopData_segments_are_slices_witness :
  1 <= 4 < uint32.modulus
  /\ chopData 4 (b "abcdefghi") 4 = Returns [b "abcd"; b "efgh"; b "i"]
  /\ Forall (fun s =>
               1 <= len s <= 4
               /\ exists j, 0 <= j /\ j + len s <= len (b "abcdefghi")
                    /\ s = firstn (Z.to_nat (len s))
                             (skipn (Z.to_nat j) (b "abcdefghi")))
            [b "abcd"; b "efgh"; b "i"].
Proof.
  split; [unfold uint32.modulus; lia|]. split; [reflexivity|].
  apply (chopData_segments_are_slices 4 (b "abcdefghi") 4);
    [unfold uint32.modulus; lia | reflexivity].
Defined.

(** ** What the constructor returns on any buffer *)

Lemma buildTree_present fuel mt s rest :
  forall start end_ t,
    buildTree fuel mt (s :: rest) start end_ = Returns t -> is_nil t = false.
Proof.
  induction fuel as [|fuel IH]; intros start end_ t; cbn [buildTree];
    [discriminate|].
  destruct (_ <=? _); [now intros [= <-]|].
  destruct (buildTree fuel mt (s :: rest) start _) as [l| |];
    cbn [bind]; try discriminate.
  destruct (buildTree fuel mt (s :: rest) _ end_) as [r| |];
    cbn [bind]; try discriminate.
  destruct (hash_of l); cbn [bind]; try discriminate.
  destruct (hash_of r); cbn [bind]; try discriminate.
  now intros [= <-].
Qed.

Lemma buildTree_no_panic fuel mt segments :
  forall start end_, buildTree fuel mt segments start end_ <> Panics.
Proof.
  induction fuel as [|fuel IH]; intros start end_; cbn [buildTree];
    [discriminate|].
  destruct segments as [|s rest]; [discriminate|].
  destruct (_ <=? _); [discriminate|].
  pose proof (IH start (uint32.add start (uint32.sub end_ start / 2))) as Pl.
  pose proof (IH (uint32.add start (uint32.sub end_ start / 2)) end_) as Pr.
  destruct (buildTree fuel mt (s :: rest) start _) as [l| |] eqn:El;
    cbn [bind]; try congruence.
  destruct (buildTree fuel mt (s :: rest) _ end_) as [r| |] eqn:Er;
    cbn [bind]; try congruence.
  destruct (hash_of_present l (buildTree_present _ _ _ _ _ _ _ El)) as (lh & ->).
  destruct (hash_of_present r (buildTree_present _ _ _ _ _ _ _ Er)) as (rh & ->).
  discriminate.
Qed.

Lemma New_fields fuel data segmentSize hashfn mt e :
  NewMerkleTreeWithCostumHash fuel data segmentSize hashfn = Returns (mt, e) ->
  mt = mkMerkleTree (root mt) data segmentSize hashfn /\ e = None.
Proof.
  unfold NewMerkleTreeWithCostumHash.
  destruct (chopData _ _ _); cbn [bind]; try discriminate.
  destruct (buildTree _ _ _ _ _); cbn [bind]; try discriminate.
  intros [= <- <-]. split; reflexivity.
Qed.

(** The constructor never panics and never returns an error: when it
    returns, the error is nil and the tree holds the caller's buffer,
    segment size and hash factory. *)
Theorem New_never_fails fuel data segmentSize hashfn :
  0 <= segmentSize < uint32.modulus ->
  match NewMerkleTreeWithCostumHash fuel data segmentSize hashfn with
  | Returns (mt, e) =>
      e = None /\ merkletree.data mt = data
      /\ merkletree.segmentSize mt = segmentSize /\ newHash mt = hashfn
  | Panics => False
  | OutOfFuel => True
  end.
Proof.
  intros HS.
  destruct (NewMerkleTreeWithCostumHash fuel data segmentSize hashfn)
    as [[mt e]| |] eqn:E; [| |exact I].
  - destruct (New_fields _ _ _ _ _ _ E) as [-> ->]. repeat split.
  - revert E. unfold NewMerkleTreeWithCostumHash.
    pose proof (chopData_never_panics fuel data segmentSize HS) as P.
    destruct (chopData _ _ _) as [segs| |]; cbn [bind]; try congruence.
    pose proof (buildTree_no_panic fuel
                  (mkMerkleTree nil_ptr data segmentSize hashfn) segs
                  0 (uint32.of_len data)) as Q.
    destruct (buildTree _ _ _ _ _); cbn [bind]; congruence.
Qed.

Lemma New_never_fails_witness :
  0 <= 4 < uint32.modulus
  /\ match NewMerkleTreeWithCostumHash 3 (b "abcdefgh") 4 sha256.New with
     | Returns (mt, e) =>
         e = None /\ merkletree.data mt = b "abcdefgh"
         /\ merkletree.segmentSize mt = 4 /\ newHash mt = sha256.New
     | Panics => False
     | OutOfFuel => True
     end.
Proof.
  split; [unfold uint32.modulus; lia|].
  apply (New_never_fails 3 (b "abcdefgh") 4 sha256.New).
  unfold uint32.modulus; lia.
Defined.

Lemma New_root_present fuel data segmentSize hashfn mt e :
  0 <= segmentSize < uint32.modulus ->
  NewMerkleTreeWithCostumHash fuel data segmentSize hashfn = Returns (mt, e) ->
  is_nil (root mt) = (uint32.of_len data =? 0).
Proof.
  intros HS. unfold NewMerkleTreeWithCostumHash.
  rewrite chopData_counters by assumption.
  destruct fuel as [|fuel]; [discriminate|]. cbn [counters].
  pose proof (of_len_range data) as R.
  destruct (Z.ltb_spec 0 (uint32.of_len data)) as [Hlt|Hge].
  - destruct (counters fuel _ _ _) as [r| |]; cbn [bind map];
      try discriminate.
    destruct (buildTree _ _ _ _ _) as [t| |] eqn:Et; cbn [bind];
      try discriminate.
    intros [= <- <-]. cbn [root set_root].
    rewrite (buildTree_present _ _ _ _ _ _ _ Et).
    symmetry. apply Z.eqb_neq. lia.
  - cbn [bind map buildTree]. intros [= <- <-]. cbn [root set_root is_nil].
    symmetry. apply Z.eqb_eq. lia.
Qed.

(** On a tree the constructor returned, [GetRootHash] panics exactly when
    the buffer's length is 0 as a [uint32] (the empty buffer, or a length
    that is a multiple of 2^32); otherwise it returns the root's digest. *)
Theorem GetRootHash_panics_iff fuel data segmentSize hashfn mt e :
  0 <= segmentSize < uint32.modulus ->
  NewMerkleTreeWithCostumHash fuel data segmentSize hashfn = Returns (mt, e) ->
  (GetRootHash mt = Panics <-> uint32.of_len data = 0)
  /\ (uint32.of_len data <> 0 ->
      GetRootHash mt = Returns (digest_of (root mt))).
Proof.
  intros HS E. pose proof (New_root_present _ _ _ _ _ _ HS E) as N.
  unfold GetRootHash. destruct (root mt) as [|l r h]; cbn [is_nil] in N.
  - symmetry in N. apply Z.eqb_eq in N. cbn [hash_of bind].
    split; [tauto | congruence].
  - symmetry in N. apply Z.eqb_neq in N. cbn [hash_of bind digest_of].
    split; [split; [discriminate | congruence] | reflexivity].
Qed.

Lemma GetRootHash_panics_iff_witness :
  0 <= 4 < uint32.modulus
  /\ NewMerkleTreeWithCostumHash 1 [] 4 sha256.New
     = Returns (mkMerkleTree nil_ptr [] 4 sha256.New, None)
  /\ (GetRootHash (mkMerkleTree nil_ptr [] 4 sha256.New) = Panics
      <-> uint32.of_len [] = 0).
Proof.
  split; [unfold uint32.modulus; lia|]. split; [reflexivity|].
  apply (GetRootHash_panics_iff 1 [] 4 sha256.New _ None);
    [unfold uint32.modulus; lia | reflexivity].
Defined.

(** ** What [Equals] and [Validate] decide *)

(** A tree without its hashes. *)
Inductive shape : Type :=
| Absent
| Present (l r : shape).

Fixpoint shape_of (n : node_ptr) : shape :=
  match n with
  | nil_ptr => Absent
  | ptr l r _ => Present (shape_of l) (shape_of r)
  end.

Definition shape_of_outcome (o : outcome node_ptr) : outcome shape :=
  n <- o ;; Returns (shape_of n).

Lemma same_shape_iff n o : same_shape n o = true <-> shape_of n = shape_of o.
Proof.
  revert o. induction n as [|nl IHl nr IHr nh]; intros [|ol or_ oh];
    cbn [same_shape shape_of]; try (split; (discriminate || reflexivity)).
  rewrite andb_true_iff, IHl, IHr. split.
  - intros [-> ->]. reflexivity.
  - intros [= -> ->]. split; reflexivity.
Qed.

(** [Equals] returns true exactly when the two trees have the same shape:
    an absent node faces an absent node and a present node a present one,
    all the way down.  No digest of [other] is read. *)
Theorem Equals_iff_same_shape mt other :
  Equals mt other = true <-> shape_of (root mt) = shape_of (root other).
Proof. rewrite Equals_same_shape. apply same_shape_iff. Qed.

(** The shape [buildTree] returns depends on the byte range and on the
    segment size only. *)
Lemma buildTree_shape fuel mt1 mt2 s1 rest1 s2 rest2 :
  segmentSize mt1 = segmentSize mt2 ->
  forall start end_,
    shape_of_outcome (buildTree fuel mt1 (s1 :: rest1) start end_)
    = shape_of_outcome (buildTree fuel mt2 (s2 :: rest2) start end_).
Proof.
  intros ES. induction fuel as [|fuel IH]; intros start end_;
    cbn [buildTree]; [reflexivity|].
  rewrite ES. destruct (_ <=? _); [reflexivity|].
  set (mid := uint32.add start (uint32.sub end_ start / 2)).
  pose proof (IH start mid) as Hl. pose proof (IH mid end_) as Hr.
  destruct (buildTree fuel mt1 (s1 :: rest1) start mid) as [l1| |] eqn:El1;
    destruct (buildTree fuel mt2 (s2 :: rest2) start mid) as [l2| |] eqn:El2;
    cbn [shape_of_outcome bind] in Hl |- *; try discriminate; try reflexivity.
  destruct (buildTree fuel mt1 (s1 :: rest1) mid end_) as [r1| |] eqn:Er1;
    destruct (buildTree fuel mt2 (s2 :: rest2) mid end_) as [r2| |] eqn:Er2;
    cbn [shape_of_outcome bind] in Hr |- *; try discriminate; try reflexivity.
  destruct (hash_of_present _ (buildTree_present _ _ _ _ _ _ _ El1)) as (? & ->).
  destruct (hash_of_present _ (buildTree_present _ _ _ _ _ _ _ El2)) as (? & ->).
  destruct (hash_of_present _ (buildTree_present _ _ _ _ _ _ _ Er1)) as (? & ->).
  destruct (hash_of_present _ (buildTree_present _ _ _ _ _ _ _ Er2)) as (? & ->).
  cbn [shape_of_outcome bind shape_of].
  injection Hl as Hl. injection Hr as Hr. now rewrite Hl, Hr.
Qed.

Lemma New_shape fuel d1 d2 segmentSize h1 h2 :
  0 <= segmentSize < uint32.modulus -> length d1 = length d2 ->
  shape_of_outcome
    (root_of (NewMerkleTreeWithCostumHash fuel d1 segmentSize h1))
  = shape_of_outcome
      (root_of (NewMerkleTreeWithCostumHash fuel d2 segmentSize h2)).
Proof.
  intros HS EL. unfold root_of, NewMerkleTreeWithCostumHash.
  rewrite !chopData_counters by assumption.
  rewrite <- (of_len_length d1 d2 EL).
  destruct (counters fuel (uint32.of_len d1) segmentSize 0) as [l| |] eqn:E;
    cbn [bind]; try reflexivity.
  destruct (counters_head _ _ _ _ _ E) as [->|(r & ->)]; cbn [map].
  - destruct fuel as [|fuel]; reflexivity.
  - pose proof (buildTree_shape fuel
                  (mkMerkleTree nil_ptr d1 segmentSize h1)
                  (mkMerkleTree nil_ptr d2 segmentSize h2)
                  (window_at d1 segmentSize 0)
                  (map (window_at d1 segmentSize) r)
                  (window_at d2 segmentSize 0)
                  (map (window_at d2 segmentSize) r)
                  eq_refl 0 (uint32.of_len d1)) as Hs.
    destruct (buildTree fuel _ (window_at d1 _ _ :: _) _ _);
      destruct (buildTree fuel _ (window_at d2 _ _ :: _) _ _);
      cbn [shape_of_outcome bind fst root set_root] in Hs |- *;
      congruence.
Qed.

(** Two trees built with the same segment size from buffers of the same
    length are [Equals], whatever the bytes of the buffers and whatever
    the hash functions. *)
Theorem Equals_same_length fuel1 fuel2 d1 d2 segmentSize h1 h2 mt1 mt2 e1 e2 :
  0 <= segmentSize < uint32.modulus -> length d1 = length d2 ->
  NewMerkleTreeWithCostumHash fuel1 d1 segmentSize h1 = Returns (mt1, e1) ->
  NewMerkleTreeWithCostumHash fuel2 d2 segmentSize h2 = Returns (mt2, e2) ->
  Equals mt1 mt2 = true.
Proof.
  intros HS EL E1 E2. apply Equals_iff_same_shape.
  pose proof (New_shape (Nat.max fuel1 fuel2) d1 d2 segmentSize h1 h2 HS EL)
    as Hs.
  rewrite (New_mono fuel1 _ _ _ _ _ (Nat.le_max_l _ _) E1) in Hs.
  rewrite (New_mono fuel2 _ _ _ _ _ (Nat.le_max_r _ _) E2) in Hs.
  cbn [root_of shape_of_outcome bind fst] in Hs. congruence.
Qed.

Lemma Equals_same_length_witness :
  0 <= 4 < uint32.modulus
  /\ length (b "abcdefgh") = length (b "stuvwxyz")
  /\ Equals
       (mkMerkleTree
          (inner_node sha256.New
             (leaf_node sha256.New (b "abcd")) (leaf_node sha256.New (b "abcd")))
          (b "abcdefgh") 4 sha256.New)
       (mkMerkleTree
          (inner_node (factory_of (fun x => x))
             (leaf_node (factory_of (fun x => x)) (b "stuv"))
             (leaf_node (factory_of (fun x => x)) (b "stuv")))
          (b "stuvwxyz") 4 (factory_of (fun x => x)))
     = true.
Proof.
  split; [unfold uint32.modulus; lia|]. split; [reflexivity|].
  apply (Equals_same_length 3 3 (b "abcdefgh") (b "stuvwxyz") 4
           sha256.New (factory_of (fun x => x)) _ _ None None);
    [unfold uint32.modulus; lia | reflexivity
    | exact (run_abcdefgh sha256.New 0) | reflexivity].
Defined.

(** [Validate] returns true, with a nil error, on every tree the
    constructor returned, and it still does after the stored buffer has
    been replaced by any buffer of the same length. *)
Theorem Validate_same_length fuel fuel' data data' segmentSize hashfn mt e :
  0 <= segmentSize < uint32.modulus ->
  NewMerkleTreeWithCostumHash fuel data segmentSize hashfn = Returns (mt, e) ->
  length data' = length data -> (fuel <= fuel')%nat ->
  Validate fuel' mt = Returns (true, None)
  /\ Validate fuel' (set_data mt data') = Returns (true, None).
Proof.
  intros HS E EL Hf.
  destruct (New_fields _ _ _ _ _ _ E) as [Emt ->].
  pose proof (New_mono _ _ _ _ _ _ Hf E) as E'.
  assert (V : forall d, length d = length data ->
              Validate fuel' (set_data mt d) = Returns (true, None)).
  { intros d Ed. unfold Validate, set_data. rewrite Emt.
    cbn [merkletree.data merkletree.segmentSize newHash root].
    pose proof (New_shape fuel' d data segmentSize hashfn hashfn HS Ed) as Hs.
    rewrite E' in Hs.
    destruct (NewMerkleTreeWithCostumHash fuel' d segmentSize hashfn)
      as [[nmt ne]| |] eqn:En;
      cbn [root_of shape_of_outcome bind fst] in Hs; try discriminate.
    destruct (New_fields _ _ _ _ _ _ En) as [_ ->].
    cbn [bind snd fst]. do 2 f_equal.
    apply Equals_iff_same_shape. cbn [root]. congruence. }
  split; [|now apply V].
  specialize (V data eq_refl). unfold set_data in V.
  rewrite Emt in V |- *. exact V.
Qed.

Lemma Validate_same_length_witness :
  0 <= 4 < uint32.modulus
  /\ length (b "stuvwxyz") = length (b "abcdefgh")
  /\ (3 <= 5)%nat
  /\ Validate 5
       (set_data
          (mkMerkleTree
             (inner_node sha256.New
                (leaf_node sha256.New (b "abcd"))
                (leaf_node sha256.New (b "abcd")))
             (b "abcdefgh") 4 sha256.New)
          (b "stuvwxyz"))
     = Returns (true, None).
Proof.
  split; [unfold uint32.modulus; lia|]. split; [reflexivity|].
  split; [lia|].
  apply (Validate_same_length 3 5 (b "abcdefgh") (b "stuvwxyz") 4
           sha256.New _ None);
    [unfold uint32.modulus; lia | exact (run_abcdefgh sha256.New 0)
    | reflexivity | lia].
Defined.

(** [Validate] returns false once the stored buffer of a tree with a root
    has been replaced by an empty one. *)
Theorem Validate_emptied fuel fuel' data segmentSize hashfn mt e :
  0 <= segmentSize < uint32.modulus ->
  NewMerkleTreeWithCostumHash fuel data segmentSize hashfn = Returns (mt, e) ->
  uint32.of_len data <> 0 ->
  Validate (S fuel') (set_data mt []) = Returns (false, None).
Proof.
  intros HS E Hne.
  pose proof (New_root_present _ _ _ _ _ _ HS E) as N.
  destruct (New_fields _ _ _ _ _ _ E) as [Emt ->].
  unfold Validate, set_data. rewrite Emt.
  cbn [merkletree.data merkletree.segmentSize newHash root].
  rewrite New_length_multiple by reflexivity.
  cbn [bind snd fst]. unfold Equals. cbn [root].
  destruct (root mt) as [|l r h]; cbn [is_nil] in N.
  - symmetry in N. apply Z.eqb_eq in N. contradiction.
  - reflexivity.
Qed.

Lemma Validate_emptied_witness :
  0 <= 4 < uint32.modulus
  /\ uint32.of_len (b "abcdefgh") <> 0
  /\ Validate 1
       (set_data
          (mkMerkleTree
             (inner_node sha256.New
                (leaf_node sha256.New (b "abcd"))
                (leaf_node sha256.New (b "abcd")))
             (b "abcdefgh") 4 sha256.New)
          [])
     = Returns (false, None).
Proof.
  split; [unfold uint32.modulus; lia|]. split; [discriminate|].
  apply (Validate_emptied 3 0 (b "abcdefgh") 4 sha256.New _ None);
    [unfold uint32.modulus; lia | exact (run_abcdefgh sha256.New 0)
    | discriminate].
Defined.

(** ** What [buildTree] returns, whenever it returns *)

Lemma New_inv fuel data segmentSize hashfn mt e :
  NewMerkleTreeWithCostumHash fuel data segmentSize hashfn = Returns (mt, e) ->
  exists segments,
    chopData fuel data segmentSize = Returns segments
    /\ buildTree fuel (mkMerkleTree nil_ptr data segmentSize hashfn)
         segments 0 (uint32.of_len data)
       = Returns (root mt).
Proof.
  unfold NewMerkleTreeWithCostumHash.
  destruct (chopData _ _ _) as [segs| |]; cbn [bind]; try discriminate.
  destruct (buildTree _ _ _ _ _) as [t| |] eqn:Et; cbn [bind];
    try discriminate.
  intros [= <- <-]. exists segs. split; [reflexivity | exact Et].
Qed.

Lemma buildTree_hashed fuel mt s rest :
  forall start end_ t,
    buildTree fuel mt (s :: rest) start end_ = Returns t ->
    hashed_from (newHash mt tt) s t.
Proof.
  induction fuel as [|fuel IH]; intros start end_ t; cbn [buildTree];
    [discriminate|].
  destruct (_ <=? _); [intros [= <-]; reflexivity|].
  destruct (buildTree fuel mt (s :: rest) start _) as [l| |] eqn:El;
    cbn [bind]; try discriminate.
  destruct (buildTree fuel mt (s :: rest) _ end_) as [r| |] eqn:Er;
    cbn [bind]; try discriminate.
  pose proof (buildTree_present _ _ _ _ _ _ _ El) as Nl.
  destruct (hash_of l) as [lh| |] eqn:Hl; cbn [bind]; try discriminate.
  destruct (hash_of r) as [rh| |] eqn:Hr; cbn [bind]; try discriminate.
  intros [= <-]. apply hashed_from_node; eauto.
  now rewrite (digest_of_hash l lh), (digest_of_hash r rh).
Qed.

(** A tree over a byte range of [n] bytes: a leaf when [n] is at most the
    segment size, and otherwise a node over the two halves of the range. *)
Inductive covers (segmentSize : Z) : Z -> node_ptr -> Prop :=
| covers_leaf n h :
    n <= segmentSize -> covers segmentSize n (ptr nil_ptr nil_ptr h)
| covers_node n l r h :
    segmentSize < n ->
    covers segmentSize (n / 2) l -> covers segmentSize (n - n / 2) r ->
    covers segmentSize n (ptr l r h).

Lemma covers_present segmentSize n t :
  covers segmentSize n t -> is_nil t = false.
Proof. intros []; reflexivity. Qed.

Lemma buildTree_covers fuel mt s rest :
  forall start end_ t,
    0 <= start <= end_ -> end_ < uint32.modulus ->
    buildTree fuel mt (s :: rest) start end_ = Returns t ->
    covers (segmentSize mt) (end_ - start) t.
Proof.
  induction fuel as [|fuel IH]; intros start end_ t Hr He; cbn [buildTree];
    [discriminate|].
  unfold uint32.sub. rewrite (wrap_small (end_ - start)) by lia.
  destruct (Z.leb_spec (end_ - start) (segmentSize mt)) as [Hle|Hgt].
  - intros [= <-]. now constructor.
  - pose proof (half_bounds (end_ - start)) as HB.
    unfold uint32.add. rewrite wrap_small by lia.
    set (mid := start + (end_ - start) / 2).
    destruct (buildTree fuel mt (s :: rest) start mid) as [l| |] eqn:El;
      cbn [bind]; try discriminate.
    destruct (buildTree fuel mt (s :: rest) mid end_) as [r| |] eqn:Er;
      cbn [bind]; try discriminate.
    destruct (hash_of l); cbn [bind]; try discriminate.
    destruct (hash_of r); cbn [bind]; try discriminate.
    intros [= <-]. apply covers_node; [assumption| |].
    + replace ((end_ - start) / 2) with (mid - start) by (unfold mid; lia).
      apply (IH start mid); [unfold mid; lia | lia | exact El].
    + replace (end_ - start - (end_ - start) / 2) with (end_ - mid)
        by (unfold mid; lia).
      apply (IH mid end_); [unfold mid; lia | lia | exact Er].
Qed.

Lemma New_covers fuel data segmentSize hashfn mt e :
  0 <= segmentSize < uint32.modulus ->
  NewMerkleTreeWithCostumHash fuel data segmentSize hashfn = Returns (mt, e) ->
  uint32.of_len data <> 0 ->
  covers segmentSize (uint32.of_len data) (root mt)
  /\ hashed_from (hashfn tt) (window_at data segmentSize 0) (root mt).
Proof.
  intros HS E Hne. destruct (New_inv _ _ _ _ _ _ E) as (segs & Ec & Eb).
  pose proof (of_len_range data) as R.
  rewrite chopData_counters in Ec by assumption.
  destruct (counters fuel _ _ _) as [l| |] eqn:Ecn; cbn [bind] in Ec;
    try discriminate.
  injection Ec as <-.
  destruct fuel as [|fuel]; [discriminate|]. cbn [counters] in Ecn.
  destruct (Z.ltb_spec 0 (uint32.of_len data)); [|lia].
  destruct (counters fuel _ _ _) as [r| |]; cbn [bind] in Ecn;
    try discriminate.
  injection Ecn as <-. cbn [map] in Eb. split.
  - pose proof (buildTree_covers _ _ _ _ 0 (uint32.of_len data) _
                  ltac:(lia) ltac:(lia) Eb) as C.
    now rewrite Z.sub_0_r in C.
  - exact (buildTree_hashed _ _ _ _ _ _ _ Eb).
Qed.

Lemma covers_small segmentSize n t :
  covers segmentSize n t -> n <= segmentSize ->
  exists h, t = ptr nil_ptr nil_ptr h.
Proof. intros [m h Hm|m l r h Hm _ _] Hn; [eauto | lia]. Qed.

(** A buffer that fits in one segment gets a single leaf, and its root
    digest is the hash of the whole buffer. *)
Theorem single_segment_root fuel data segmentSize alg mt e :
  0 < len data <= segmentSize -> segmentSize < uint32.modulus ->
  NewMerkleTreeWithCostumHash fuel data segmentSize (factory_of alg)
  = Returns (mt, e) ->
  is_leaf (root mt) = true /\ GetRootHash mt = Returns (alg data).
Proof.
  intros HL HS E.
  assert (Hlen : uint32.of_len data = len data)
    by (apply of_len_small; lia).
  assert (HR : 0 <= segmentSize < uint32.modulus) by lia.
  assert (Hne : uint32.of_len data <> 0) by lia.
  destruct (New_covers _ _ _ _ _ _ HR E Hne) as [C H].
  assert (Hsmall : uint32.of_len data <= segmentSize) by lia.
  destruct (covers_small _ _ _ C Hsmall) as (h & Et).
  unfold GetRootHash. rewrite Et in *. cbn [hashed_from] in H. subst h.
  split; [reflexivity|]. cbn [hash_of bind].
  rewrite window_at_0, Hlen by lia.
  rewrite firstn_all2 by (unfold len in *; lia). reflexivity.
Qed.

Lemma single_segment_root_witness :
  0 < len (b "abc") <= 4 /\ 4 < uint32.modulus
  /\ GetRootHash
       (mkMerkleTree (leaf_node (factory_of sha256.sum256) (b "abc"))
          (b "abc") 4 (factory_of sha256.sum256))
     = Returns (sha256.sum256 (b "abc")).
Proof.
  split; [cbn; lia|]. split; [unfold uint32.modulus; lia|].
  apply (single_segment_root 2 (b "abc") 4 sha256.sum256 _ None);
    [cbn; lia | unfold uint32.modulus; lia
    | exact (run_single_leaf (factory_of sha256.sum256) (b "abc") 0
               ltac:(cbn; lia))].
Defined.



(** With segment size 0, [buildTree] on a range of at least one byte does
    not return: a range of one byte is split into an empty range and
    itself. *)
Theorem buildTree_zero_segmentSize mt s rest :
  segmentSize mt = 0 ->
  forall fuel start end_,
    0 <= start < end_ -> end_ < uint32.modulus ->
    buildTree fuel mt (s :: rest) start end_ = OutOfFuel.
Proof.
  intros HS. induction fuel as [|fuel IH]; intros start end_ Hr He;
    cbn [buildTree]; [reflexivity|].
  unfold uint32.sub. rewrite (wrap_small (end_ - start)) by lia.
  rewrite HS. destruct (Z.leb_spec (end_ - start) 0) as [Hle|Hgt]; [lia|].
  pose proof (half_bounds (end_ - start)) as HB.
  unfold uint32.add. rewrite wrap_small by lia.
  set (mid := start + (end_ - start) / 2).
  rewrite (IH mid end_) by (unfold mid; lia).
  pose proof (buildTree_no_panic fuel mt (s :: rest) start mid) as P.
  destruct (buildTree fuel mt (s :: rest) start mid);
    [reflexivity | contradiction | reflexivity].
Qed.

Lemma buildTree_zero_segmentSize_witness :
  segmentSize (mkMerkleTree nil_ptr (b "a") 0 sha256.New) = 0
  /\ 0 <= 0 < 1 /\ 1 < uint32.modulus
  /\ buildTree 9 (mkMerkleTree nil_ptr (b "a") 0 sha256.New) [b "a"] 0 1
     = OutOfFuel.
Proof.
  split; [reflexivity|]. split; [lia|]. split; [reflexivity|].
  apply (buildTree_zero_segmentSize
           (mkMerkleTree nil_ptr (b "a") 0 sha256.New) (b "a") []);
    [reflexivity | lia | reflexivity].
Defined.

(** ** Balance *)

(** Depth of the shallowest and of the deepest leaf. *)
Fixpoint shallowest (n : node_ptr) : Z :=
  match n with
  | nil_ptr => 0
  | ptr nil_ptr nil_ptr _ => 0
  | ptr l r _ => 1 + Z.min (shallowest l) (shallowest r)
  end.

Fixpoint deepest (n : node_ptr) : Z :=
  match n with
  | nil_ptr => 0
  | ptr nil_ptr nil_ptr _ => 0
  | ptr l r _ => 1 + Z.max (deepest l) (deepest r)
  end.

Lemma shallowest_node l r h :
  is_nil l = false ->
  shallowest (ptr l r h) = 1 + Z.min (shallowest l) (shallowest r).
Proof. destruct l; [discriminate | reflexivity]. Qed.

Lemma deepest_node l r h :
  is_nil l = false ->
  deepest (ptr l r h) = 1 + Z.max (deepest l) (deepest r).
Proof. destruct l; [discriminate | reflexivity]. Qed.

Lemma half_even n : n mod 2 = 0 -> (n + 1) / 2 = n / 2.
Proof. intros H. Z.div_mod_to_equations. lia. Qed.

Lemma half_odd n : n mod 2 = 1 -> (n + 1) / 2 = n / 2 + 1.
Proof. intros H. Z.div_mod_to_equations. lia. Qed.

Lemma parity n : n mod 2 = 0 \/ n mod 2 = 1.
Proof. pose proof (Z.mod_pos_bound n 2 ltac:(lia)). lia. Qed.

(** Two trees over ranges of the same length have their leaves at the
    same depths. *)
Lemma covers_depths segmentSize n t :
  covers segmentSize n t ->
  forall t', covers segmentSize n t' ->
    shallowest t = shallowest t' /\ deepest t = deepest t'.
Proof.
  induction 1 as [n h Hn|n l r h Hn Cl IHl Cr IHr]; intros t' C'.
  - inversion C' as [n' h' Hn'|n' l' r' h' Hn' Cl' Cr']; subst;
      [split; reflexivity | lia].
  - inversion C' as [n' h' Hn'|n' l' r' h' Hn' Cl' Cr']; subst; [lia|].
    destruct (IHl _ Cl') as [A1 A2]. destruct (IHr _ Cr') as [B1 B2].
    rewrite !shallowest_node, !deepest_node
      by eauto using covers_present.
    split; congruence.
Qed.

(** Trees over ranges of [n] and [n + 1] bytes. *)
Lemma covers_next segmentSize :
  1 <= segmentSize ->
  forall (k : nat) n t t',
    0 <= n < Z.of_nat k ->
    covers segmentSize n t -> covers segmentSize (n + 1) t' ->
    shallowest t <= shallowest t' /\ deepest t <= deepest t'
    /\ deepest t' <= shallowest t + 1
    /\ shallowest t <= deepest t /\ shallowest t' <= deepest t'.
Proof.
  intros HS. induction k as [|k IH]; intros n t t' Hn C C'; [lia|].
  inversion C as [m h Hm|m l r h Hm Cl Cr]; subst;
    inversion C' as [m' h' Hm'|m' l' r' h' Hm' Cl' Cr']; subst.
  - cbn [shallowest deepest]. lia.
  - pose proof (half_bounds (n + 1)) as HB.
    destruct (covers_small _ _ _ Cl' ltac:(lia)) as (hl & ->).
    destruct (covers_small _ _ _ Cr' ltac:(lia)) as (hr & ->).
    cbn [shallowest deepest]. lia.
  - lia.
  - pose proof (half_bounds n) as HB.
    rewrite !shallowest_node, !deepest_node by eauto using covers_present.
    destruct (parity n) as [P|P].
    + rewrite (half_even n P) in Cl', Cr'.
      replace (n + 1 - n / 2) with (n / 2 + 1) in Cr'
        by (Z.div_mod_to_equations; lia).
      replace (n - n / 2) with (n / 2) in Cr
        by (Z.div_mod_to_equations; lia).
      destruct (IH (n / 2) l r' ltac:(lia) Cl Cr') as (I1 & I2 & I3 & I4 & I5).
      destruct (covers_depths _ _ _ Cl _ Cr) as [U1 U2].
      destruct (covers_depths _ _ _ Cl _ Cl') as [V1 V2].
      lia.
    + rewrite (half_odd n P) in Cl', Cr'.
      replace (n + 1 - (n / 2 + 1)) with (n / 2 + 1) in Cr'
        by (Z.div_mod_to_equations; lia).
      replace (n - n / 2) with (n / 2 + 1) in Cr
        by (Z.div_mod_to_equations; lia).
      destruct (IH (n / 2) l r ltac:(lia) Cl Cr) as (I1 & I2 & I3 & I4 & I5).
      destruct (covers_depths _ _ _ Cr _ Cl') as [U1 U2].
      destruct (covers_depths _ _ _ Cr _ Cr') as [V1 V2].
      lia.
Qed.

Lemma covers_balanced segmentSize :
  1 <= segmentSize ->
  forall (k : nat) n t,
    0 <= n < Z.of_nat k -> covers segmentSize n t ->
    shallowest t <= deepest t <= shallowest t + 1.
Proof.
  intros HS. induction k as [|k IH]; intros n t Hn C; [lia|].
  inversion C as [m h Hm|m l r h Hm Cl Cr]; subst.
  - cbn [shallowest deepest]. lia.
  - pose proof (half_bounds n) as HB.
    rewrite !shallowest_node, !deepest_node by eauto using covers_present.
    destruct (parity n) as [P|P].
    + replace (n - n / 2) with (n / 2) in Cr
        by (Z.div_mod_to_equations; lia).
      destruct (covers_depths _ _ _ Cl _ Cr) as [U1 U2].
      pose proof (IH (n / 2) l ltac:(lia) Cl). lia.
    + replace (n - n / 2) with (n / 2 + 1) in Cr
        by (Z.div_mod_to_equations; lia).
      destruct (covers_next segmentSize HS (S k) (n / 2) l r
                  ltac:(lia) Cl Cr) as (I1 & I2 & I3 & I4 & I5).
      lia.
Qed.

(** Every tree the constructor returns for a segment size of at least 1
    is balanced to within one level: the depths of any two of its leaves
    differ by at most one. *)
Theorem tree_balanced fuel data segmentSize hashfn mt e :
  1 <= segmentSize < uint32.modulus ->
  NewMerkleTreeWithCostumHash fuel data segmentSize hashfn = Returns (mt, e) ->
  shallowest (root mt) <= deepest (root mt) <= shallowest (root mt) + 1.
Proof.
  intros HS E. pose proof (of_len_range data) as R.
  assert (HR : 0 <= segmentSize < uint32.modulus) by lia.
  destruct (Z.eq_dec (uint32.of_len data) 0) as [Z0|Hne].
  - pose proof (New_root_present _ _ _ _ _ _ HR E) as N.
    rewrite Z0 in N. destruct (root mt); [cbn; lia | discriminate].
  - destruct (New_covers _ _ _ _ _ _ HR E Hne) as [C _].
    apply (covers_balanced segmentSize ltac:(lia)
             (S (Z.to_nat (uint32.of_len data))) (uint32.of_len data));
      [lia | exact C].
Qed.

Lemma tree_balanced_witness :
  1 <= 4 < uint32.modulus
  /\ shallowest
       (inner_node sha256.New
          (leaf_node sha256.New (b "abcd"))
          (inner_node sha256.New
             (leaf_node sha256.New (b "abcd"))
             (leaf_node sha256.New (b "abcd"))))
     <= deepest
          (inner_node sha256.New
             (leaf_node sha256.New (b "abcd"))
             (inner_node sha256.New
                (leaf_node sha256.New (b "abcd"))
                (leaf_node sha256.New (b "abcd"))))
     <= shallowest
          (inner_node sha256.New
             (leaf_node sha256.New (b "abcd"))
             (inner_node sha256.New
                (leaf_node sha256.New (b "abcd"))
                (leaf_node sha256.New (b "abcd")))) + 1.
Proof.
  split; [unfold uint32.modulus; lia|].
  exact (tree_balanced 4 (b "abcdefghi") 4 sha256.New _ None
           ltac:(unfold uint32.modulus; lia) (run_abcdefghi sha256.New 0)).
Defined.

(** ** The default hash *)

Lemma be_bytes_length width z : length (sha256.be_bytes width z) = width.
Proof. unfold sha256.be_bytes. now rewrite length_map, length_rev, length_seq. Qed.

Lemma round_length st kw : length (sha256.round st kw) = length st.
Proof.
  unfold sha256.round.
  destruct st as [|a0 [|a1 [|a2 [|a3 [|a4 [|a5 [|a6 [|a7 [|a8 st]]]]]]]]];
    reflexivity.
Qed.

Lemma rounds_length kws :
  forall st, length (fold_left sha256.round kws st) = length st.
Proof.
  induction kws as [|kw kws IH]; intros st; cbn [fold_left];
    [reflexivity|]. now rewrite IH, round_length.
Qed.

Lemma block_length st blk : length (sha256.block st blk) = length st.
Proof.
  unfold sha256.block.
  rewrite length_map, length_combine, rounds_length. apply Nat.min_id.
Qed.

Lemma blocks_length n :
  forall st ws, length (sha256.blocks n st ws) = length st.
Proof.
  induction n as [|n IH]; intros st ws; cbn [sha256.blocks];
    [reflexivity|]. now rewrite IH, block_length.
Qed.

Lemma sum256_length msg : length (sha256.sum256 msg) = 32%nat.
Proof.
  unfold sha256.sum256.
  assert (F : forall st : list Z,
             length (flat_map (sha256.be_bytes 4) st) = (4 * length st)%nat).
  { induction st as [|x st IH]; cbn [flat_map]; [reflexivity|].
    rewrite length_app, be_bytes_length, IH. cbn [length]. lia. }
  rewrite F, blocks_length. reflexivity.
Qed.

Lemma hashed_from_algorithm fresh seg l r h :
  hashed_from fresh seg (ptr l r h) -> algorithm h = algorithm fresh.
Proof.
  cbn [hashed_from]. destruct l as [|ll lr lh].
  - destruct r as [|rl rr rh].
    + intros ->. reflexivity.
    + intros (-> & _). reflexivity.
  - intros (-> & _). reflexivity.
Qed.

(** With the default hash, whatever [GetRootHash] returns is 32 bytes
    long. *)
Theorem default_root_hash_length fuel data segmentSize mt e digest :
  NewMerkleTree fuel data segmentSize = Returns (mt, e) ->
  GetRootHash mt = Returns digest ->
  length digest = 32%nat.
Proof.
  rewrite NewMerkleTree_eq. intros E G.
  destruct (New_inv _ _ _ _ _ _ E) as (segs & _ & Eb).
  unfold GetRootHash in G.
  destruct (root mt) as [|l r h] eqn:Er; cbn [hash_of bind] in G;
    [discriminate|].
  injection G as <-.
  destruct fuel as [|fuel]; [discriminate|].
  destruct segs as [|s rest]; [discriminate|].
  pose proof (buildTree_hashed _ _ _ _ _ _ _ Eb) as H.
  apply hashed_from_algorithm in H. cbn [newHash] in H.
  unfold Sum. rewrite H. cbn [app sha256.New factory_of algorithm].
  apply sum256_length.
Qed.

Lemma default_root_hash_length_witness :
  length
    (sha256.sum256 (sha256.sum256 (b "abcd") ++ sha256.sum256 (b "abcd")))
  = 32%nat.
Proof.
  apply (default_root_hash_length 3 (b "abcdefgh") 4
           (mkMerkleTree
              (inner_node sha256.New
                 (leaf_node sha256.New (b "abcd"))
                 (leaf_node sha256.New (b "abcd")))
              (b "abcdefgh") 4 sha256.New) None).
  - exact (run_abcdefgh sha256.New 0).
  - vm_compute. reflexivity.
Defined.

(** ** The dump *)

From Stdlib Require Import DecimalString.

Module fmt.

Definition decimal (n : N) : string := NilZero.string_of_uint (N.to_uint n).

(** [%v] of a [uint32]. *)
Definition v_uint32 (z : Z) : string := decimal (Z.to_N z).

(** [%v] of a [[]byte]: the bytes in decimal between brackets, separated
    by spaces. *)
Definition v_bytes (bs : list byte) : string :=
  ("[" ++ String.concat " " (map (fun x => decimal (Byte.to_N x)) bs) ++ "]")
    %string.

End fmt.

Definition tab : string := String (ascii_of_nat 9) EmptyString.
Definition newline : string := String (ascii_of_nat 10) EmptyString.

Fixpoint subTreeToString (n : node_ptr) (prepad : string) : string :=
  match n with
  | nil_ptr => EmptyString
  | ptr n_left n_right n_hash =>
      (prepad ++ ("hash:" ++ fmt.v_bytes (Sum n_hash []))
       ++ subTreeToString n_left (prepad ++ tab)
       ++ subTreeToString n_right (prepad ++ tab))%string
  end.

(** The method [String] of [MerkleTree]. *)
Definition MerkleTree_String (mt : MerkleTree) : string :=
  let str :=
    ("MerkleTree:" ++ newline ++ "data:" ++ fmt.v_bytes (data mt) ++ newline
     ++ "segmentSize:" ++ fmt.v_uint32 (segmentSize mt) ++ newline
     ++ "tree:" ++ newline)%string in
  (str ++ subTreeToString (root mt) EmptyString)%string.

(** The nodes in the order root, left, right, each with its depth. *)
Fixpoint preorder (depth : nat) (n : node_ptr) : list (nat * list byte) :=
  match n with
  | nil_ptr => []
  | ptr l r h =>
      (depth, Sum h []) :: preorder (S depth) l ++ preorder (S depth) r
  end.

Fixpoint tabs (depth : nat) : string :=
  match depth with
  | O => EmptyString
  | S d => (tabs d ++ tab)%string
  end.

Definition entry (prepad : string) (p : nat * list byte) : string :=
  (prepad ++ tabs (fst p) ++ "hash:" ++ fmt.v_bytes (snd p))%string.

Lemma append_assoc (s1 s2 s3 : string) :
  ((s1 ++ s2) ++ s3 = s1 ++ (s2 ++ s3))%string.
Proof.
  induction s1 as [|c s1 IH]; cbn [String.append];
    [reflexivity | now rewrite IH].
Qed.

Lemma append_empty_r (s : string) : (s ++ "")%string = s.
Proof.
  induction s as [|c s IH]; cbn [String.append];
    [reflexivity | now rewrite IH].
Qed.

Lemma concat_app (l1 l2 : list string) :
  String.concat "" (l1 ++ l2)
  = (String.concat "" l1 ++ String.concat "" l2)%string.
Proof.
  induction l1 as [|x l1 IH]; [reflexivity|].
  destruct l1 as [|y l1].
  - cbn [app String.concat]. destruct l2 as [|z l2].
    + cbn [String.concat]. now rewrite append_empty_r.
    + reflexivity.
  - change (String.concat "" ((x :: y :: l1) ++ l2))
      with (x ++ "" ++ String.concat "" ((y :: l1) ++ l2))%string.
    rewrite IH.
    change (String.concat "" (x :: y :: l1))
      with (x ++ "" ++ String.concat "" (y :: l1))%string.
    cbn [String.append]. now rewrite append_assoc.
Qed.

Lemma concat_cons (x : string) (l : list string) :
  String.concat "" (x :: l) = (x ++ String.concat "" l)%string.
Proof.
  destruct l as [|y l]; cbn [String.concat];
    [now rewrite append_empty_r | reflexivity].
Qed.

Lemma subTreeToString_preorder n :
  forall prepad depth,
    subTreeToString n (prepad ++ tabs depth)
    = String.concat "" (map (entry prepad) (preorder depth n)).
Proof.
  induction n as [|l IHl r IHr h]; intros prepad depth;
    cbn [subTreeToString preorder map]; [reflexivity|].
  rewrite concat_cons, map_app, concat_app.
  rewrite append_assoc.
  rewrite (append_assoc prepad (tabs depth) tab).
  change (tabs depth ++ tab)%string with (tabs (S depth)).
  rewrite IHl, IHr.
  change (entry prepad (depth, Sum h []))
    with (prepad ++ tabs depth ++ "hash:" ++ fmt.v_bytes (Sum h []))%string.
  now rewrite !append_assoc.
Qed.

Lemma preorder_length n :
  forall depth,
    Z.of_nat (length (preorder depth n)) = leaves n + internal_nodes n.
Proof.
  induction n as [|l IHl r IHr h]; intros depth; [reflexivity|].
  cbn [preorder length]. rewrite length_app, Nat2Z.inj_succ, Nat2Z.inj_add.
  rewrite IHl, IHr.
  destruct l as [|ll lr lh]; destruct r as [|rl rr rh];
    cbn [leaves internal_nodes]; lia.
Qed.

Example fmt_v_bytes :
  fmt.v_bytes (b "ab") = "[97 98]"%string /\ fmt.v_bytes [] = "[]"%string
  /\ fmt.v_uint32 0 = "0"%string /\ fmt.v_uint32 4096 = "4096"%string.
Proof. repeat split. Qed.

(** The dump is the header (buffer and segment size) followed by one
    entry per node, in the order root, left subtree, right subtree; the
    entry of a node at depth d is d tabs, "hash:" and the node's digest in
    decimal, and nothing separates two entries. *)
Theorem String_lists_nodes mt :
  MerkleTree_String mt
  = (("MerkleTree:" ++ newline ++ "data:" ++ fmt.v_bytes (data mt) ++ newline
      ++ "segmentSize:" ++ fmt.v_uint32 (segmentSize mt) ++ newline
      ++ "tree:" ++ newline)
     ++ String.concat ""
          (map (entry EmptyString) (preorder 0 (root mt))))%string
  /\ Z.of_nat (length (preorder 0 (root mt)))
     = leaves (root mt) + internal_nodes (root mt).
Proof.
  split; [|apply preorder_length].
  unfold MerkleTree_String. cbv zeta. f_equal.
  exact (subTreeToString_preorder (root mt) EmptyString 0).
Qed.

(** ** The variant over [Data] items *)

Module merkletree_data.

Section variant.

(** The interface [Data]; its methods are never called. *)
Variable Data : Type.

Record MerkleTree : Type := mkMerkleTree {
  root : node_ptr;
  data : list Data;
  hashfn : hash_factory
}.

Definition NewCostumHasMerkleTree (d : list Data) (hash : hash_factory)
    : MerkleTree * error :=
  let mt := mkMerkleTree nil_ptr d hash in
  (mt, None).

Definition NewMerkleTree (d : list Data) : MerkleTree * error :=
  NewCostumHasMerkleTree d sha256.New.

Definition GetRootHash (mt : MerkleTree) : outcome (list byte) :=
  h <- hash_of (root mt) ;;
  Returns (Sum h []).

Definition Validate (mt : MerkleTree) : bool * error := (false, None).

Definition String_ (mt : MerkleTree) : string * error :=
  (EmptyString, None).

(** No constructor of the variant builds a root: [GetRootHash] panics on
    every tree they return, for every list of items, and [Validate]
    reports false on it. *)
Theorem variant_has_no_root (d : list Data) (hash : hash_factory) :
  GetRootHash (fst (NewCostumHasMerkleTree d hash)) = Panics
  /\ GetRootHash (fst (NewMerkleTree d)) = Panics
  /\ snd (NewCostumHasMerkleTree d hash) = None
  /\ Validate (fst (NewCostumHasMerkleTree d hash)) = (false, None).
Proof. repeat split. Qed.

End variant.

End merkletree_data.
